(** * volatrivia: the trivia game engine, embedded and verified

    A shallow embedding of [volatrivia/__init__.py]: the answer matcher
    ([Question.cleanup], [Question.check]), the question pool ([Pool]), the
    score keeping ([Game]) and the pulse-driven controller
    ([TriviaCommand]).

    Python [str] values are lists of code points.  The interpreter's
    Unicode tables are fixed on the ASCII range and left as a parameter
    ([Runtime]) beyond it.  The library routines the module calls
    ([re.sub] for the one pattern of the module, [str.strip],
    [str.casefold], [int], [difflib.SequenceMatcher.ratio]) are written out
    after their CPython implementations. *)

From Stdlib Require Import ZArith NArith QArith Lia String Ascii DecimalString DecimalPos.
From stdpp Require Import base option list sorting gmap.

Local Close Scope Q_scope.
Local Open Scope nat_scope.

(** ** Strings *)

(** A [str] is the list of its code points. *)
Abbreviation str := (list N) (only parsing).

(** A literal of the source, as code points. *)
Definition lit (s : string) : str := map N_of_ascii (list_ascii_of_string s).

(** What the interpreter supplies: its Unicode tables for the code points
    from 128 on, [html.unescape], and the limit on the digits of an integer
    string ([sys.get_int_max_str_digits()]; 0 when there is none). *)
Record Runtime := {
  uni_isspace : N -> bool;        (* Py_UNICODE_ISSPACE *)
  uni_isalnum : N -> bool;        (* Py_UNICODE_ISALNUM *)
  uni_casefold : N -> list N;     (* full case folding of one code point *)
  uni_decimal : N -> option Z;    (* Py_UNICODE_TODECIMAL *)
  html_unescape : str -> str;
  int_max_str_digits : nat
}.

(** A runtime that knows nothing beyond ASCII and no HTML entity, with the
    interpreter's default limit of 4300 digits. *)
Definition ascii_only : Runtime :=
  {| uni_isspace := fun _ => false;
     uni_isalnum := fun _ => false;
     uni_casefold := fun c => [c];
     uni_decimal := fun _ => None;
     html_unescape := fun s => s;
     int_max_str_digits := 4300 |}.

Section Text.

Context (rt : Runtime).

Definition between (lo hi c : N) : bool := ((lo <=? c) && (c <=? hi))%N.

(** [str.isspace] on one code point; also the class [\s] of [re]. *)
Definition isspace (c : N) : bool :=
  if (c <? 128)%N then between 9 13 c || between 28 32 c else uni_isspace rt c.

(** The class [\w] of [re]: alphanumeric or underscore. *)
Definition isword (c : N) : bool :=
  if (c <? 128)%N
  then between 48 57 c || between 65 90 c || between 97 122 c || (c =? 95)%N
  else uni_isalnum rt c.

Definition casefold_char (c : N) : list N :=
  if (c <? 128)%N then (if between 65 90 c then [(c + 32)%N] else [c])
  else uni_casefold rt c.

(** [str.casefold] *)
Definition casefold (s : str) : str := flat_map casefold_char s.

Fixpoint lstrip (s : str) : str :=
  match s with
  | c :: rest => if isspace c then lstrip rest else s
  | [] => []
  end.

Definition rstrip (s : str) : str := rev (lstrip (rev s)).

(** [str.strip] without argument *)
Definition strip (s : str) : str := rstrip (lstrip s).

(** ** The pattern [r_cleanup]

    [\s+|[\r\n]+|\b(?:the|an?|of)\b|[.!_,?()-]|<[^<]*>]

    [match_here prev s] is the length of the match of the pattern that
    starts at the head of [s], where [prev] is the code point before it
    (for [\b]); the alternatives are tried in order, as the backtracking
    matcher does. *)

Definition isword_opt (c : option N) : bool :=
  match c with Some c => isword c | None => false end.

(** [\b] between two neighbours; the ends of the string count as non-word. *)
Definition at_boundary (prev next : option N) : bool :=
  xorb (isword_opt prev) (isword_opt next).

(** Length of the longest prefix whose code points satisfy [p]. *)
Fixpoint span (p : N -> bool) (s : str) : nat :=
  match s with
  | c :: rest => if p c then S (span p rest) else 0
  | [] => 0
  end.

Fixpoint starts_with (w s : str) : bool :=
  match w, s with
  | [], _ => true
  | x :: w', c :: s' => (x =? c)%N && starts_with w' s'
  | _ :: _, [] => false
  end.

(** A literal word of the third alternative followed by [\b]. *)
Definition word_then_boundary (w s : str) : option nat :=
  if starts_with w s && at_boundary (last w) (head (drop (length w) s))
  then Some (length w) else None.

(** [\b(?:the|an?|of)\b]; [an?] is greedy, so "an" is tried before "a". *)
Definition match_article (prev : option N) (s : str) : option nat :=
  if at_boundary prev (head s) then
    match word_then_boundary (lit "the") s with
    | Some n => Some n
    | None =>
      match word_then_boundary (lit "an") s with
      | Some n => Some n
      | None =>
        match word_then_boundary (lit "a") s with
        | Some n => Some n
        | None => word_then_boundary (lit "of") s
        end
      end
    end
  else None.

Definition is_crlf (c : N) : bool := (c =? 13)%N || (c =? 10)%N.

(** [.!_,?()-] *)
Definition is_punct (c : N) : bool :=
  existsb (N.eqb c) (lit ".!_,?()-").

(** One more than the index of the last code point of [s] satisfying [p]. *)
Fixpoint last_pos (p : N -> bool) (s : str) : option nat :=
  match s with
  | [] => None
  | c :: rest =>
    match last_pos p rest with
    | Some n => Some (S n)
    | None => if p c then Some 1 else None
    end
  end.

(** [<[^<]*>] after the opening bracket: the greedy class runs to the next
    [<] or to the end and backtracks to the last [>] it went over. *)
Definition match_tag (rest : str) : option nat :=
  let seg := take (span (fun c => negb (c =? 60)%N) rest) rest in
  match last_pos (N.eqb 62) seg with
  | Some n => Some (S n)
  | None => None
  end.

Definition match_here (prev : option N) (s : str) : option nat :=
  match s with
  | [] => None
  | c :: rest =>
    if isspace c then Some (span isspace s)
    else if is_crlf c then Some (span is_crlf s)
    else
      match match_article prev s with
      | Some n => Some n
      | None =>
        if is_punct c then Some 1
        else if (c =? 60)%N then match_tag rest
        else None
      end
  end.

(** [r_cleanup.sub(" ", s)]: scan from the left; at a match emit one space
    and resume after it ([skip] counts the code points of the match still
    to pass over), otherwise copy the code point.  No alternative matches
    the empty string. *)
Fixpoint sub_from (prev : option N) (skip : nat) (s : str) : str :=
  match s with
  | [] => []
  | c :: rest =>
    match skip with
    | S k => sub_from (Some c) k rest
    | O =>
      match match_here prev s with
      | Some (S k) => 32%N :: sub_from (Some c) k rest
      | _ => c :: sub_from (Some c) 0 rest
      end
    end
  end.

Definition r_cleanup_sub (s : str) : str := sub_from None 0 s.

(** The body of the loop of [Question.cleanup]. *)
Definition cleanup_pass (s : str) : str := strip (r_cleanup_sub s).

(** A space weighs 1 and any other code point 2: a pass that changes the
    string lowers the weight, which bounds the iterations. *)
Definition weight (s : str) : nat :=
  fold_right (fun c n => (if (c =? 32)%N then 1 else 2) + n) 0 s.

Fixpoint cleanup_loop (fuel : nat) (string : str) : str :=
  match fuel with
  | O => string
  | S fuel' =>
    let newstr := cleanup_pass string in
    if decide (newstr = string) then string else cleanup_loop fuel' newstr
  end.

(** [Question.cleanup] *)
Definition cleanup (string : str) : str :=
  let string := casefold string in
  cleanup_loop (S (weight string)) string.

(** ** [int(string)] in base 10

    Leading and trailing white space is dropped, a sign may follow, then
    decimal digits with single underscores between them.  Where the
    interpreter limits the number of digits, a string with more digits is
    refused. *)

(** White space for [int]: code points 28 to 31 do not count. *)
Definition int_isspace (c : N) : bool :=
  if (c <? 128)%N then between 9 13 c || (c =? 32)%N else uni_isspace rt c.

Definition decimal_digit (c : N) : option Z :=
  if (c <? 128)%N
  then (if between 48 57 c then Some (Z.of_N c - 48)%Z else None)
  else uni_decimal rt c.

Fixpoint int_lstrip (s : str) : str :=
  match s with
  | c :: rest => if int_isspace c then int_lstrip rest else s
  | [] => []
  end.

(** [after_digit] tells whether the code point before was a digit. *)
Fixpoint int_digits (acc : Z) (after_digit : bool) (s : str) : option Z :=
  match s with
  | [] => if after_digit then Some acc else None
  | c :: rest =>
    if (c =? 95)%N then
      (if after_digit then int_digits acc false rest else None)
    else
      match decimal_digit c with
      | Some d => int_digits (10 * acc + d)%Z true rest
      | None => None
      end
  end.

(** The digits of the string, underscores apart. *)
Definition int_ndigits (digits : str) : nat :=
  length (filter (fun c => c ≠ 95%N) digits).

(** More than 640 digits are checked against the limit, when one is set. *)
Definition too_many_digits (digits : nat) : bool :=
  (640 <? digits) && (0 <? int_max_str_digits rt)
  && (int_max_str_digits rt <? digits).

(** [None] stands for [ValueError]. *)
Definition py_int (s : str) : option Z :=
  let body := rev (int_lstrip (rev (int_lstrip s))) in
  let digits :=
    match body with
    | 43%N :: digits | 45%N :: digits => digits
    | digits => digits
    end in
  if too_many_digits (int_ndigits digits) then None
  else
    match body with
    | 43%N :: digits => int_digits 0 false digits
    | 45%N :: digits => Z.opp <$> int_digits 0 false digits
    | digits => int_digits 0 false digits
    end.

End Text.

(** ** [difflib.SequenceMatcher]

    [SequenceMatcher(None, a, b)]: no junk predicate, [autojunk] on. *)

Module SequenceMatcher.

Definition count (c : N) (b : str) : nat := length (filter (fun x => x = c) b).

(** [__chain_b]: with [len(b) >= 200], an element occurring more than
    [len(b) // 100 + 1] times is popular and leaves [b2j]. *)
Definition bpopular (b : str) (c : N) : bool :=
  (200 <=? length b) && (length b / 100 + 1 <? count c b).

(** No junk predicate was given: [bjunk] stays empty. *)
Definition isbjunk (c : N) : bool := false.

Fixpoint positions (c : N) (off : nat) (b : str) : list nat :=
  match b with
  | [] => []
  | x :: rest =>
    if (x =? c)%N then off :: positions c (S off) rest
    else positions c (S off) rest
  end.

(** [b2j.get(elt, [])]: the indices of [elt] in [b], in increasing order. *)
Definition b2j (b : str) (c : N) : list nat :=
  if bpopular b c then [] else positions c 0 b.

(** A block [(i, j, size)]: [a[i:i+size] == b[j:j+size]]. *)
Definition Match : Type := nat * nat * nat.

Definition size (m : Match) : nat := m.2.

(** [j2len.get(j-1, 0)]; the key [-1] is never present. *)
Definition j2lenget (j2len : gmap nat nat) (j : nat) : nat :=
  match j with
  | O => 0
  | S j' => default 0 (j2len !! j')
  end.

(** The inner loop of [find_longest_match] over [b2j[a[i]]]. *)
Fixpoint scan_row (j2len : gmap nat nat) (i blo bhi : nat) (js : list nat)
    (newj2len : gmap nat nat) (best : Match) : gmap nat nat * Match :=
  match js with
  | [] => (newj2len, best)
  | j :: js' =>
    if j <? blo then scan_row j2len i blo bhi js' newj2len best (* continue *)
    else if bhi <=? j then (newj2len, best)                      (* break *)
    else
      let k := j2lenget j2len j + 1 in
      scan_row j2len i blo bhi js' (<[j := k]> newj2len)
        (if size best <? k then (i + 1 - k, j + 1 - k, k) else best)
  end.

(** The outer loop, [for i in range(alo, ahi)]. *)
Fixpoint scan_rows (a b : str) (blo bhi : nat) (rows : list nat)
    (j2len : gmap nat nat) (best : Match) : Match :=
  match rows with
  | [] => best
  | i :: rows' =>
    let '(newj2len, best') :=
      scan_row j2len i blo bhi (from_option (b2j b) [] (a !! i)) ∅ best in
    scan_rows a b blo bhi rows' newj2len best'
  end.

(** [a[i] == b[j]], both indices in range. *)
Definition same_at (a : str) (i : nat) (b : str) (j : nat) : bool :=
  match a !! i, b !! j with
  | Some x, Some y => (x =? y)%N
  | _, _ => false
  end.

Definition junk_at (b : str) (j : nat) : bool :=
  from_option isbjunk false (b !! j).

(** [while besti > alo and bestj > blo and isbjunk(b[bestj-1]) is junk
    and a[besti-1] == b[bestj-1]]: step the block one to the left. *)
Fixpoint extend_left (junk : bool) (a b : str) (alo blo : nat)
    (besti bestj bestsize : nat) : Match :=
  match besti, bestj with
  | S i', S j' =>
    if (alo <? besti) && (blo <? bestj) && eqb (junk_at b j') junk
       && same_at a i' b j'
    then extend_left junk a b alo blo i' j' (S bestsize)
    else (besti, bestj, bestsize)
  | _, _ => (besti, bestj, bestsize)
  end.

(** [while besti+bestsize < ahi and bestj+bestsize < bhi and ...]: grow the
    block to the right; [room] is [ahi - (besti+bestsize)], the number of
    steps after which the first test fails. *)
Fixpoint extend_right (junk : bool) (a b : str) (ahi bhi : nat)
    (besti bestj : nat) (room : nat) (bestsize : nat) : nat :=
  match room with
  | O => bestsize
  | S room' =>
    if (besti + bestsize <? ahi) && (bestj + bestsize <? bhi)
       && eqb (junk_at b (bestj + bestsize)) junk
       && same_at a (besti + bestsize) b (bestj + bestsize)
    then extend_right junk a b ahi bhi besti bestj room' (S bestsize)
    else bestsize
  end.

Definition find_longest_match (a b : str) (alo ahi blo bhi : nat) : Match :=
  let '(besti, bestj, bestsize) :=
    scan_rows a b blo bhi (seq alo (ahi - alo)) ∅ (alo, blo, 0) in
  let '(besti, bestj, bestsize) :=
    extend_left false a b alo blo besti bestj bestsize in
  let bestsize :=
    extend_right false a b ahi bhi besti bestj (ahi - (besti + bestsize)) bestsize in
  let '(besti, bestj, bestsize) :=
    extend_left true a b alo blo besti bestj bestsize in
  let bestsize :=
    extend_right true a b ahi bhi besti bestj (ahi - (besti + bestsize)) bestsize in
  (besti, bestj, bestsize).

(** A pending range [(alo, ahi, blo, bhi)]. *)
Definition Range : Type := nat * nat * nat * nat.

(** The work list of [get_matching_blocks]; the head of [queue] is the
    entry [queue.pop()] takes. *)
Fixpoint blocks_loop (fuel : nat) (a b : str) (queue : list Range)
    (matching_blocks : list Match) : list Match :=
  match fuel, queue with
  | S fuel', (alo, ahi, blo, bhi) :: queue =>
    let '(i, j, k) := find_longest_match a b alo ahi blo bhi in
    if 0 <? k then
      let queue :=
        if (alo <? i) && (blo <? j) then (alo, i, blo, j) :: queue else queue in
      let queue :=
        if (i + k <? ahi) && (j + k <? bhi) then (i + k, ahi, j + k, bhi) :: queue
        else queue in
      blocks_loop fuel' a b queue (matching_blocks ++ [(i, j, k)])
    else blocks_loop fuel' a b queue matching_blocks
  | _, _ => matching_blocks
  end.

(** Tuple order, for [matching_blocks.sort()]. *)
Definition Match_le (x y : Match) : Prop :=
  let '(i1, j1, k1) := x in
  let '(i2, j2, k2) := y in
  i1 < i2 ∨ (i1 = i2 ∧ (j1 < j2 ∨ (j1 = j2 ∧ k1 ≤ k2))).

Global Instance Match_le_dec x y : Decision (Match_le x y).
Proof. destruct x as [[??]?], y as [[??]?]; simpl; apply _. Defined.

(** The loop that merges adjacent blocks into [non_adjacent]. *)
Fixpoint collapse (i1 j1 k1 : nat) (blocks : list Match) : list Match :=
  match blocks with
  | [] => if 0 <? k1 then [(i1, j1, k1)] else []
  | (i2, j2, k2) :: rest =>
    if (i1 + k1 =? i2) && (j1 + k1 =? j2) then collapse i1 j1 (k1 + k2) rest
    else (if 0 <? k1 then [(i1, j1, k1)] else []) ++ collapse i2 j2 k2 rest
  end.

(** Every popped range with a match leaves strictly shorter ranges of [a]:
    [2 * len(a) + 1] rounds empty the work list. *)
Definition get_matching_blocks (a b : str) : list Match :=
  let la := length a in
  let lb := length b in
  let matching_blocks :=
    blocks_loop (2 * la + 1) a b [(0, la, 0, lb)] [] in
  collapse 0 0 0 (merge_sort Match_le matching_blocks) ++ [(la, lb, 0)].

(** [_calculate_ratio] *)
Definition calculate_ratio (matches length : nat) : Q :=
  match length with
  | O => 1%Q
  | S _ => (Z.of_nat (2 * matches) # Pos.of_nat length)%Q
  end.

(** [sum(triple[-1] for triple in blocks)] *)
Definition total_size (blocks : list Match) : nat :=
  foldr (fun m n => size m + n) 0 blocks.

Definition ratio (a b : str) : Q :=
  let matches := total_size (get_matching_blocks a b) in
  calculate_ratio matches (length a + length b).

(** *** Notions used in the proofs *)

(** The block lies inside the ranges searched. *)
Definition in_range (alo ahi blo bhi : nat) (m : Match) : Prop :=
  alo ≤ m.1.1 ∧ m.1.1 + m.2 ≤ ahi ∧ blo ≤ m.1.2 ∧ m.1.2 + m.2 ≤ bhi.

(** What [j2len] may hold when row [i] is entered. *)
Definition row_ok (alo blo i : nat) (j2len : gmap nat nat) : Prop :=
  ∀ j v, j2len !! j = Some v → v ≤ i - alo ∧ v ≤ j + 1 - blo.

Definition range_ok (r : Range) : Prop :=
  r.1.1.1 ≤ r.1.1.2 ∧ r.1.2 ≤ r.2.

(** Lengths of the [a] sides and of the [b] sides still on the work list. *)
Definition pending_a (queue : list Range) : nat :=
  foldr (fun r n => (r.1.1.2 - r.1.1.1) + n) 0 queue.

Definition pending_b (queue : list Range) : nat :=
  foldr (fun r n => (r.2 - r.1.2) + n) 0 queue.

(** Rounds of the work list that the pending ranges can still cause. *)
Definition work (queue : list Range) : nat :=
  foldr (fun r n => 2 * (r.1.1.2 - r.1.1.1) + 1 + n) 0 queue.

(** Length of the run of elements of [x] that are not popular and end at
    index [j]. *)
Fixpoint run (x : str) (j : nat) : nat :=
  match x !! j with
  | Some c =>
    if bpopular x c then 0
    else S (match j with O => 0 | S j' => run x j' end)
  | None => 0
  end.

(** The run that ends just before index [j]. *)
Definition run_before (x : str) (j : nat) : nat :=
  match j with O => 0 | S j' => run x j' end.

(** What [j2len] holds when row [i] of the comparison of [x] with itself
    is entered. *)
Definition diag_row_ok (x : str) (i : nat) (j2len : gmap nat nat) : Prop :=
  ∀ j, (j < i → j2lenget j2len j ≤ run_before x j) ∧
       (j = i → j2lenget j2len j = run_before x i) ∧
       (i < j → j2lenget j2len j ≤ run_before x i).

(** The state of the inner loop in row [i] of the comparison of [x] with
    itself, with the indices [rest] still to visit. *)
Definition diag_inv (x : str) (i : nat) (rest : list nat)
    (newj2len : gmap nat nat) (best : Match) : Prop :=
  best.1.1 = best.1.2 ∧ best.1.1 + size best ≤ S i ∧
  (∀ j, j < i → run x j ≤ size best) ∧
  (∀ j v, newj2len !! j = Some v → (j ≤ i → v ≤ run x j) ∧ (i ≤ j → v ≤ run x i)) ∧
  ((i ∈ rest ∧ newj2len !! i = None) ∨
   (run x i ≤ size best ∧ newj2len !! i = Some (run x i))).

End SequenceMatcher.


(** ** Exceptions and posted messages *)

Inductive exn :=
  | ValueError (message : string)
  | AttributeError (message : string).

(** How a call ends: it returns a value or raises. *)
Inductive outcome (A : Type) :=
  | Return (v : A)
  | Raise (e : exn).
Arguments Return {A} v.
Arguments Raise {A} e.

(** ** [Question] *)

Module Question.

Record t := mk { id : Z; question : str; answer : str }.

Definition ratio : Q := 87 # 100.

Definition cleanup := cleanup.

Definition check (rt : Runtime) (self : t) (answer' : str) : bool :=
  let answer' := cleanup rt answer' in
  if bool_decide (answer' = []) || (length answer' <? 1) then false
  else
    let expected := cleanup rt (answer self) in
    let ratio' := SequenceMatcher.ratio expected answer' in
    Qle_bool ratio ratio'.

End Question.

(** ** [Pool] *)

Module Pool.

(** An item of the first source (opentdb). *)
Record ItemA := {
  type : str;
  a_question : str;
  correct_answer : str;
  incorrect_answers : list str
}.

(** An item of the second source (jservice); [value] is [None] when the
    key is missing or null. *)
Record ItemB := {
  value : option Z;
  b_answer : str;
  b_question : str
}.

(** What the outside answers during one [seed].  For each source: the
    items that its loop goes through to the end ([None] when the request
    or the decoding raises, before any item), and whether an exception
    ends the loop after them (an item that is not as expected raises, and
    the [try] that encloses the loop leaves the questions appended so
    far).  Then what [random.shuffle] does to the answers of an item and
    to the pool. *)
Record Net := {
  opentdb : option (list ItemA);
  opentdb_raises : bool;
  jservice : option (list ItemB);
  jservice_raises : bool;
  shuffle_answers : list str -> list str;
  shuffle_questions : list Question.t -> list Question.t
}.

Record t := mk { questions : list Question.t }.

Definition new : t := mk [].

Definition unesc (rt : Runtime) (string : str) : str :=
  strip rt (html_unescape rt string).

(** [sep.join(l)] *)
Fixpoint join (sep : str) (l : list str) : str :=
  match l with
  | [] => []
  | [x] => x
  | x :: rest => x ++ sep ++ join sep rest
  end.

(** One turn of the first loop of [seed]: the question to append, if any. *)
Definition of_opentdb (rt : Runtime) (net : Net) (i : ItemA) : option Question.t :=
  let answer := unesc rt (correct_answer i) in
  let question :=
    if bool_decide (type i = lit "boolean") then
      lit "True of false: " ++ unesc rt (a_question i)
    else
      let answers := map (unesc rt) (incorrect_answers i) in
      let answers := answers ++ [answer] in
      let answers := shuffle_answers net answers in
      unesc rt (a_question i) ++ [10%N] ++ lit "[" ++ join (lit "] [") answers ++ lit "]" in
  let question := lit "Trivia: " ++ question in
  if 300 <? length question then None
  else Some (Question.mk 0 question answer).

(** One turn of the second loop of [seed]. *)
Definition of_jservice (i : ItemB) : option Question.t :=
  let value :=
    match value i with
    | Some 0%Z | None => 1000%Z         (* [i.get("value", 0) or 1000] *)
    | Some v => v
    end in
  if (800 <? value)%Z then None
  else
    let answer := b_answer i in
    let question := b_question i in
    let question := lit "Trivia: " ++ question in
    if 300 <? length question then None
    else Some (Question.mk 0 question answer).

(** [seed]: each loop appends the questions of the items it goes through;
    an exception ends the loop and leaves what was appended, and the pool
    is shuffled in any case. *)
Definition seed (rt : Runtime) (net : Net) (self : t) : t :=
  let questions := questions self in
  let questions :=
    match opentdb net with
    | Some res => questions ++ omap (of_opentdb rt net) res
    | None => questions
    end in
  let questions :=
    match jservice net with
    | Some res => questions ++ omap of_jservice res
    | None => questions
    end in
  mk (shuffle_questions net questions).

(** What the two [except] branches of [seed] log. *)
Definition seed_log (net : Net) : list string :=
  (if bool_decide (opentdb net = None) || opentdb_raises net
   then ["failed to get opentdb questions"%string] else [])
  ++
  (if bool_decide (jservice net = None) || jservice_raises net
   then ["failed to get jservice questions"%string] else []).

(** [list.pop()]: the last element and the list without it. *)
Definition pop {A} (l : list A) : option (A * list A) :=
  match rev l with
  | [] => None
  | x :: front => Some (x, rev front)
  end.

Definition get_question (rt : Runtime) (net : Net) (self : t) : option Question.t * t :=
  let self := if bool_decide (questions self = []) then seed rt net self else self in
  match pop (questions self) with
  | None => (None, self)
  | Some (q, rest) => (Some q, mk rest)
  end.

(** The class method: [instance] is [None] until the first call. *)
Definition question (rt : Runtime) (net : Net) (instance : option t)
    : option Question.t * option t :=
  let self := default new instance in
  let '(q, self) := get_question rt net self in
  (q, Some self).

End Pool.

Inductive Result := CORRECT | INCORRECT | WON.

(** ** [Game] *)

Module Game.

(** [counts] is the [Counter]: a missing player counts 0. *)
Record t := mk {
  towin : Z;
  counts : gmap str Z;
  _question : option Question.t
}.

Definition new (towin : Z) : t := mk towin ∅ None.

Definition count (self : t) (answerer : str) : Z :=
  default 0%Z (counts self !! answerer).

(** The property [question]; the pool instance is threaded through. *)
Definition question (rt : Runtime) (net : Pool.Net) (self : t) (pool : option Pool.t)
    : option Question.t * t * option Pool.t :=
  match _question self with
  | Some q => (Some q, self, pool)
  | None =>
    let '(q, pool) := Pool.question rt net pool in
    (q, mk (towin self) (counts self) q, pool)
  end.

Definition check (rt : Runtime) (self : t) (answerer answer : str) : outcome Result * t :=
  match _question self with
  | None => (Raise (ValueError "no question asked"), self)
  | Some q =>
    if Question.check rt q answer then
      let self := mk (towin self) (<[answerer := (count self answerer + 1)%Z]> (counts self))
                     (_question self) in
      if (towin self <=? count self answerer)%Z then (Return WON, self)
      else (Return CORRECT, self)
    else (Return INCORRECT, self)
  end.

Definition skip (self : t) : t := mk (towin self) (counts self) None.

End Game.

(** ** [TriviaCommand] *)

(** An argument handed to [post]. *)
Inductive value :=
  | VNone
  | VStr (s : str)
  | VInt (n : Z)
  | VQuestion (q : Question.t)
  | VGame (g : Game.t).

(** [self.post(template, *args)] *)
Record Post := post { template : string; args : list value }.

(** The chat message: [msg.nick] and [msg.msg]. *)
Record Message := { nick : str; msg : str }.

Module TriviaCommand.

Definition interval : Q := 5.
Definition timeout : Q := 30.

(** The command object together with the class-level pool instance. *)
Record t := mk {
  game : option Game.t;
  deadline : Q;
  pool : option Pool.t
}.

(** [x > y] on time stamps *)
Definition Qgt_bool (x y : Q) : bool := negb (Qle_bool x y).

(** [__init__]; [pool] is what [Pool.instance] holds at that time. *)
Definition new (pool : option Pool.t) : t := mk None 0 pool.

Definition handles (self : t) (cmd : str) : bool :=
  if bool_decide (cmd = lit "!trivia") then true
  else bool_decide (game self ≠ None).

Definition value_of_question (q : option Question.t) : value :=
  match q with Some q => VQuestion q | None => VNone end.

(** [__call__]; [allowed] is what [self.allowed(msg)] answers. *)
Definition call (rt : Runtime) (net : Pool.Net) (allowed : bool)
    (self : t) (cmd remainder : str) (msg' : Message)
    : outcome bool * t * list Post :=
  if negb allowed then (Return false, self, [])
  else if bool_decide (cmd = lit "!trivia") then
    match game self with
    | Some g => (Return true, self, [post "{}" [VGame g]])
    | None =>
      let towin :=
        match py_int rt (strip rt remainder) with
        | Some n => Z.max 1 n
        | None => 5%Z
        end in
      (Return true, mk (Some (Game.new towin)) 0 (pool self),
       [post "Started a trivia with {} to win" [VInt towin]])
    end
  else
    match game self with
    | None => (Raise (AttributeError "'NoneType' object has no attribute 'check'"), self, [])
    | Some g =>
      match Game.check rt g (nick msg') (msg msg') with
      | (Raise e, g) => (Raise e, mk (Some g) (deadline self) (pool self), [])
      | (Return WON, g) =>
        (Return true, mk None (deadline self) (pool self),
         [post "WE GOT A WINRAR! Congrats {}" [VStr (nick msg')]])
      | (Return CORRECT, g) =>
        let '(q, g, pool) := Game.question rt net g (pool self) in
        match q with
        | None =>
          (Raise (AttributeError "'NoneType' object has no attribute 'answer'"),
           mk (Some g) 0 pool, [])
        | Some q =>
          (Return true, mk (Some (Game.skip g)) 0 pool,
           [post "Indeed, {}: {}" [VStr (nick msg'); VStr (Question.answer q)]])
        end
      | (Return INCORRECT, g) =>
        (Return false, mk (Some g) (deadline self) (pool self), [])
      end
    end.

(** [onpulse]; [now] is what [time()] answers. *)
Definition onpulse (rt : Runtime) (net : Pool.Net) (now : Q) (self : t)
    : outcome unit * t * list Post :=
  match game self with
  | None => (Return (), self, [])
  | Some g =>
    if Qeq_bool (deadline self) 0 then
      let deadline := (now + timeout)%Q in
      let '(q, g, pool) := Game.question rt net g (pool self) in
      (Return (), mk (Some g) deadline pool, [post "{}" [value_of_question q]])
    else if negb (Qgt_bool (deadline self) now) then
      let '(q, g, pool) := Game.question rt net g (pool self) in
      match q with
      | None =>
        (Raise (AttributeError "'NoneType' object has no attribute 'answer'"),
         mk (Some g) (deadline self) pool, [])
      | Some q =>
        (Return (), mk (Some (Game.skip g)) 0 pool,
         [post "Too slow! Answer: {}" [VStr (Question.answer q)]])
      end
    else (Return (), self, [])
  end.

(** Successive pulses; the posts are collected in order. *)
Fixpoint onpulses (rt : Runtime) (ticks : list (Pool.Net * Q)) (self : t)
    : t * list Post :=
  match ticks with
  | [] => (self, [])
  | (net, now) :: rest =>
    let '(_, self, posts) := onpulse rt net now self in
    let '(self, posts') := onpulses rt rest self in
    (self, posts ++ posts')
  end.

End TriviaCommand.

(** A code point that case folding leaves as it is. *)
Definition folded (rt : Runtime) (c : N) : Prop := casefold_char rt c = [c].

(** * Fixtures *)

(** Both sources fail; nothing is reordered. *)
Definition silent : Pool.Net :=
  {| Pool.opentdb := None;
     Pool.opentdb_raises := true;
     Pool.jservice := None;
     Pool.jservice_raises := true;
     Pool.shuffle_answers := fun l => l;
     Pool.shuffle_questions := fun l => l |}.

Definition paris : Question.t :=
  Question.mk 0 (lit "Trivia: What is the capital of France?") (lit "Paris").

Definition alice : str := lit "alice".

Definition says (who text : string) : Message :=
  {| nick := lit who; msg := lit text |}.

(** The command object right after [!trivia 3] on a fresh bot. *)
Definition just_started : TriviaCommand.t :=
  (TriviaCommand.call ascii_only silent true (TriviaCommand.new None)
     (lit "!trivia") (lit "3") (says "alice" "!trivia 3")).1.2.

(** The command object with a game running, nothing announced yet and no
    question to be had. *)
Definition awaiting_announce : TriviaCommand.t :=
  TriviaCommand.mk (Some (Game.new 5)) 0 None.

(** A game to three in which alice has two points and the question about
    Paris is open. *)
Definition match_point : Game.t :=
  Game.mk 3 {[ alice := 2%Z ]} (Some paris).

(** Items of the second source: without a value, with value 0, with 200. *)
Definition no_value : Pool.ItemB :=
  {| Pool.value := None; Pool.b_answer := lit "Paris";
     Pool.b_question := lit "Capital of France?" |}.

Definition zero_value : Pool.ItemB :=
  {| Pool.value := Some 0%Z; Pool.b_answer := lit "Paris";
     Pool.b_question := lit "Capital of France?" |}.

Definition cheap : Pool.ItemB :=
  {| Pool.value := Some 200%Z; Pool.b_answer := lit "Paris";
     Pool.b_question := lit "Capital of France?" |}.

(** The second source answers with [items], the first fails. *)
Definition jservice_only (items : list Pool.ItemB) : Pool.Net :=
  {| Pool.opentdb := None;
     Pool.opentdb_raises := true;
     Pool.jservice := Some items;
     Pool.jservice_raises := false;
     Pool.shuffle_answers := fun l => l;
     Pool.shuffle_questions := fun l => l |}.

(** A game to five with the question about Paris announced at time 100. *)
Definition awaiting_answer : TriviaCommand.t :=
  TriviaCommand.mk (Some (Game.mk 5 ∅ (Some paris))) 130 (Some Pool.new).

(** * Further notions used in the proofs *)

(** At the head of [s], with [prev] before it, the pattern [r_cleanup]
    matches nothing, or one space by itself. *)
Definition quiet (rt : Runtime) (prev : option N) (s : list N) : Prop :=
  match match_here rt prev s with
  | Some (S k) => k = 0 ∧ head s = Some 32%N
  | _ => True
  end.

(** The code point that stands before what follows [pre], when [prev]
    stands before [pre]. *)
Definition before (prev : option N) (pre : list N) : option N :=
  match last pre with
  | Some c => Some c
  | None => prev
  end.

(** The words of the third alternative of [r_cleanup]. *)
Definition articles : list (list N) :=
  [lit "the"; lit "an"; lit "a"; lit "of"].

(** A question as [Pool.seed] builds them: identifier 0, a text that
    starts with "Trivia: " and has at most 300 code points. *)
Definition rendered (q : Question.t) : Prop :=
  Question.id q = 0%Z ∧
  (∃ text, Question.question q = lit "Trivia: " ++ text) ∧
  length (Question.question q) ≤ 300.

(** An item of the first source with several answers to choose from. *)
Definition capital_item : Pool.ItemA :=
  {| Pool.type := lit "multiple";
     Pool.a_question := lit "What is the capital of France?";
     Pool.correct_answer := lit "Paris";
     Pool.incorrect_answers := [lit "Lyon"; lit "Nice"; lit "Lille"] |}.

(** The first source answers with [items], the second fails; the shuffles
    reverse. *)
Definition opentdb_only (items : list Pool.ItemA) : Pool.Net :=
  {| Pool.opentdb := Some items;
     Pool.opentdb_raises := false;
     Pool.jservice := None;
     Pool.jservice_raises := true;
     Pool.shuffle_answers := @rev (list N);
     Pool.shuffle_questions := @rev Question.t |}.

(** ** [Game.__str__]: the leader board

    [items] stands for [self.counts.items()], the players with their
    scores in the order in which the counter iterates over them. *)

Module GameView.

Definition key (item : list N * Z) : Z := item.2.

(** [str(n)] for an integer *)
Definition decimal (n : Z) : list N := lit (NilZero.string_of_int (Z.to_int n)).

(** [sorted(items, key=key, reverse=True)]: the scores go down, and items
    with the same score stay in the order they came in. *)
Fixpoint insert (x : list N * Z) (sorted : list (list N * Z)) : list (list N * Z) :=
  match sorted with
  | [] => [x]
  | y :: rest =>
    if (key x <? key y)%Z then y :: insert x rest else x :: y :: rest
  end.

Definition sorted (items : list (list N * Z)) : list (list N * Z) :=
  foldr insert [] items.

(** ["#{}: {} ({})".format(i + 1, k, v)] *)
Definition entry (i : nat) (item : list N * Z) : list N :=
  lit "#" ++ decimal (Z.of_nat i + 1) ++ lit ": " ++ item.1
  ++ lit " (" ++ decimal item.2 ++ lit ")".

Definition scores (items : list (list N * Z)) : list (list N) :=
  take 5 (imap entry (sorted items)).

Definition to_str (items : list (list N * Z)) : list N :=
  lit "Leaders: " ++ Pool.join (lit " ") (scores items).

End GameView.

(** ** Runs of the controller *)

(** What reaches the command object: a chat line, with what
    [self.allowed] answers for it, or a pulse at some time; each comes
    with what the sources would answer if asked. *)
Inductive event :=
  | Chat (allowed : bool) (cmd remainder : list N) (m : Message) (net : Pool.Net)
  | Pulse (now : Q) (net : Pool.Net).

(** The state after an event; an exception leaves the state it was raised
    in. *)
Definition step (rt : Runtime) (self : TriviaCommand.t) (e : event) : TriviaCommand.t :=
  match e with
  | Chat allowed cmd remainder m net =>
    (TriviaCommand.call rt net allowed self cmd remainder m).1.2
  | Pulse now net => (TriviaCommand.onpulse rt net now self).1.2
  end.

Definition run (rt : Runtime) (events : list event) (self : TriviaCommand.t)
    : TriviaCommand.t :=
  foldl (step rt) self events.

(** While a game runs its threshold is at least 1 and every score is below
    it. *)
Definition scores_below_threshold (self : TriviaCommand.t) : Prop :=
  match TriviaCommand.game self with
  | Some g => (1 ≤ Game.towin g)%Z ∧ ∀ p, (0 ≤ Game.count g p < Game.towin g)%Z
  | None => True
  end.

(** A game to five in which the question about Paris timed out at 130,
    the pool being used up. *)
Definition expired : TriviaCommand.t :=
  TriviaCommand.mk (Some (Game.mk 5 ∅ (Some paris))) 130 (Some (Pool.mk [])).

(** The integer that the digits of [d] write after the digits that gave
    [acc]. *)
Fixpoint uint_val (acc : Z) (d : Decimal.uint) : Z :=
  match d with
  | Decimal.Nil => acc
  | Decimal.D0 l => uint_val (10 * acc + 0) l
  | Decimal.D1 l => uint_val (10 * acc + 1) l
  | Decimal.D2 l => uint_val (10 * acc + 2) l
  | Decimal.D3 l => uint_val (10 * acc + 3) l
  | Decimal.D4 l => uint_val (10 * acc + 4) l
  | Decimal.D5 l => uint_val (10 * acc + 5) l
  | Decimal.D6 l => uint_val (10 * acc + 6) l
  | Decimal.D7 l => uint_val (10 * acc + 7) l
  | Decimal.D8 l => uint_val (10 * acc + 8) l
  | Decimal.D9 l => uint_val (10 * acc + 9) l
  end.

(** The code points of a numeral: the digits and the minus sign. *)
Definition numeral_char (c : N) : Prop := c = 45%N ∨ (48 ≤ c ∧ c ≤ 57)%N.

(** The two strings agree at the positions [i] and [j]. *)
Definition common_at (a b : list N) (i j : nat) : Prop :=
  ∃ c, a !! i = Some c ∧ b !! j = Some c.

(** The block names a substring that the two strings share. *)
Definition genuine (a b : list N) (m : SequenceMatcher.Match) : Prop :=
  ∀ t, t < m.2 → common_at a b (m.1.1 + t) (m.1.2 + t).

(** What [j2len] records when row [i] is entered: runs of agreement that
    end in the row before. *)
Definition runs_ok (a b : list N) (i : nat) (j2len : gmap nat nat) : Prop :=
  ∀ j v, j2len !! j = Some v →
    ∃ i', i = S i' ∧ v ≤ i ∧ v ≤ S j ∧ ∀ t, t < v → common_at a b (i' - t) (j - t).

(** While the deadline is unset, the running game has no question open. *)
Definition open_question_has_deadline (self : TriviaCommand.t) : Prop :=
  match TriviaCommand.game self with
  | Some g => Qeq_bool (TriviaCommand.deadline self) 0 = true → Game._question g = None
  | None => True
  end.

(** The clock of a pulse does not read 30 before the epoch, so that the
    deadline it sets is not the value that stands for "unset". *)
Definition timely (e : event) : Prop :=
  match e with
  | Pulse now _ => ¬ (now + TriviaCommand.timeout == 0)%Q
  | Chat _ _ _ _ _ => True
  end.

(** What the pool holds when it is asked for a question: its questions,
    after the refill if it had none. *)
Definition stock (rt : Runtime) (net : Pool.Net) (pool : option Pool.t)
    : list Question.t :=
  let self := default Pool.new pool in
  if bool_decide (Pool.questions self = []) then Pool.questions (Pool.seed rt net self)
  else Pool.questions self.

(** The first source gives one item and then raises; so does the second. *)
Definition both_break : Pool.Net :=
  {| Pool.opentdb := Some [capital_item];
     Pool.opentdb_raises := true;
     Pool.jservice := Some [cheap];
     Pool.jservice_raises := true;
     Pool.shuffle_answers := fun l => l;
     Pool.shuffle_questions := fun l => l |}.

(** * Properties *)

(** ** Normalisation terminates *)

Section CleanupFacts.

Context (rt : Runtime).

Lemma sub_from_cons prev skip c rest :
  sub_from rt prev skip (c :: rest) =
  match skip with
  | S k => sub_from rt (Some c) k rest
  | O =>
    match match_here rt prev (c :: rest) with
    | Some (S k) => 32%N :: sub_from rt (Some c) k rest
    | _ => c :: sub_from rt (Some c) 0 rest
    end
  end.
Proof. reflexivity. Qed.

Lemma weight_cons c s :
  weight (c :: s) = (if (c =? 32)%N then 1 else 2) + weight s.
Proof. reflexivity. Qed.

Lemma weight_app s1 s2 : weight (s1 ++ s2) = weight s1 + weight s2.
Proof.
  induction s1 as [|c s1 IH]; [reflexivity|].
  rewrite <- app_comm_cons, !weight_cons, IH. lia.
Qed.

Lemma weight_rev s : weight (rev s) = weight s.
Proof.
  induction s as [|c s IH]; [reflexivity|].
  simpl rev. rewrite weight_app, IH, !weight_cons. simpl. lia.
Qed.

Lemma weight_pos c s : 0 < weight (c :: s).
Proof. rewrite weight_cons. destruct (c =? 32)%N; lia. Qed.

Lemma weight_drop k s : weight (drop k s) ≤ weight s.
Proof.
  revert k. induction s as [|c s IH]; intros [|k]; simpl drop; try lia.
  rewrite weight_cons. specialize (IH k). lia.
Qed.

Lemma weight_drop_eq k s : weight (drop k s) = weight s → k = 0 ∨ s = [].
Proof.
  destruct k as [|k]; [by left|]. destruct s as [|c s]; [by right|].
  simpl drop. intros H. pose proof (weight_drop k s) as Hle.
  rewrite weight_cons in H. destruct (c =? 32)%N; lia.
Qed.

Lemma lstrip_weight s : weight (lstrip rt s) ≤ weight s.
Proof.
  induction s as [|c s IH]; [reflexivity|]. simpl lstrip.
  destruct (isspace rt c); [|reflexivity]. rewrite weight_cons. lia.
Qed.

Lemma lstrip_weight_eq s : weight (lstrip rt s) = weight s → lstrip rt s = s.
Proof.
  destruct s as [|c s]; [reflexivity|]. simpl lstrip.
  destruct (isspace rt c); [|reflexivity].
  pose proof (lstrip_weight s). rewrite weight_cons.
  destruct (c =? 32)%N; lia.
Qed.

Lemma rstrip_weight s : weight (rstrip rt s) ≤ weight s.
Proof.
  unfold rstrip. rewrite weight_rev.
  etransitivity; [apply lstrip_weight|]. by rewrite weight_rev.
Qed.

Lemma rstrip_weight_eq s : weight (rstrip rt s) = weight s → rstrip rt s = s.
Proof.
  unfold rstrip. rewrite weight_rev. rewrite <- (weight_rev s) at 1.
  intros H. apply lstrip_weight_eq in H. rewrite H. apply rev_involutive.
Qed.

Lemma strip_weight s : weight (strip rt s) ≤ weight s.
Proof.
  unfold strip. etransitivity; [apply rstrip_weight|apply lstrip_weight].
Qed.

Lemma strip_weight_eq s : weight (strip rt s) = weight s → strip rt s = s.
Proof.
  unfold strip. intros H.
  pose proof (rstrip_weight (lstrip rt s)). pose proof (lstrip_weight s).
  assert (Hl : lstrip rt s = s) by (apply lstrip_weight_eq; lia).
  rewrite Hl in *. by apply rstrip_weight_eq.
Qed.

Lemma sub_from_weight s : ∀ prev skip,
  weight (sub_from rt prev skip s) ≤ weight (drop skip s).
Proof.
  induction s as [|c s IH]; intros prev skip.
  - by destruct skip.
  - rewrite sub_from_cons. destruct skip as [|k]; [|apply IH].
    rewrite drop_0. pose proof (IH (Some c) 0) as IH0. rewrite drop_0 in IH0.
    destruct (match_here rt prev (c :: s)) as [[|k]|].
    + rewrite !weight_cons. lia.
    + rewrite !weight_cons. specialize (IH (Some c) k).
      pose proof (weight_drop k s). simpl. destruct (c =? 32)%N; lia.
    + rewrite !weight_cons. lia.
Qed.

Lemma sub_from_weight_eq s : ∀ prev,
  weight (sub_from rt prev 0 s) = weight s → sub_from rt prev 0 s = s.
Proof.
  induction s as [|c s IH]; intros prev; [reflexivity|].
  rewrite sub_from_cons.
  destruct (match_here rt prev (c :: s)) as [[|k]|].
  - rewrite !weight_cons. intros H. f_equal. apply IH. lia.
  - rewrite !weight_cons. simpl (if (32 =? 32)%N then _ else _).
    pose proof (sub_from_weight s (Some c) k) as H1.
    pose proof (weight_drop k s) as H2. intros H.
    destruct (N.eqb_spec c 32) as [->|]; [|lia].
    f_equal.
    destruct (weight_drop_eq k s) as [->| ->]; [lia|apply IH; lia|by destruct k].
  - rewrite !weight_cons. intros H. f_equal. apply IH. lia.
Qed.

Lemma cleanup_pass_weight s : weight (cleanup_pass rt s) ≤ weight s.
Proof.
  unfold cleanup_pass, r_cleanup_sub.
  etransitivity; [apply strip_weight|]. apply (sub_from_weight s None 0).
Qed.

(** A pass that changes the string makes it lighter. *)
Lemma cleanup_pass_lighter s :
  cleanup_pass rt s ≠ s → weight (cleanup_pass rt s) < weight s.
Proof.
  intros Hne. pose proof (cleanup_pass_weight s) as Hle.
  destruct (decide (weight (cleanup_pass rt s) = weight s)) as [Heq|]; [|lia].
  exfalso. apply Hne. unfold cleanup_pass, r_cleanup_sub in *.
  pose proof (strip_weight (sub_from rt None 0 s)).
  pose proof (sub_from_weight s None 0) as H2. rewrite drop_0 in H2.
  assert (Hs : sub_from rt None 0 s = s) by (apply sub_from_weight_eq; lia).
  rewrite Hs in *. by apply strip_weight_eq.
Qed.

(** With fuel above the weight the loop leaves through its [break]: what
    it returns is a fixed point of the pass. *)
Lemma cleanup_loop_fixed fuel : ∀ s,
  weight s < fuel → cleanup_pass rt (cleanup_loop rt fuel s) = cleanup_loop rt fuel s.
Proof.
  induction fuel as [|fuel IH]; intros s Hlt; [lia|].
  simpl cleanup_loop. destruct (decide (cleanup_pass rt s = s)) as [Heq|Hne]; [done|].
  apply IH. pose proof (cleanup_pass_lighter s Hne). lia.
Qed.

(** More fuel than the weight changes nothing. *)
Lemma cleanup_loop_fuel fuel1 fuel2 : ∀ s,
  weight s < fuel1 → weight s < fuel2 →
  cleanup_loop rt fuel1 s = cleanup_loop rt fuel2 s.
Proof.
  revert fuel2. induction fuel1 as [|fuel1 IH]; intros [|fuel2] s H1 H2; try lia.
  simpl. destruct (decide (cleanup_pass rt s = s)) as [Heq|Hne]; [done|].
  pose proof (cleanup_pass_lighter s Hne). apply IH; lia.
Qed.

Lemma cleanup_fixed s : cleanup_pass rt (cleanup rt s) = cleanup rt s.
Proof. unfold cleanup. apply cleanup_loop_fixed. lia. Qed.

Lemma cleanup_loop_of_fixed fuel s :
  cleanup_pass rt s = s → cleanup_loop rt fuel s = s.
Proof.
  intros H. destruct fuel; [reflexivity|]. simpl. by rewrite decide_True.
Qed.

(** *** What a pass keeps *)

Section Kept.

Context (P : N → Prop) (Pspace : P 32%N).

Lemma lstrip_Forall s : Forall P s → Forall P (lstrip rt s).
Proof.
  induction 1 as [|c s Hc Hs IH]; [constructor|]. simpl.
  destruct (isspace rt c); [done|by constructor].
Qed.

Lemma strip_Forall s : Forall P s → Forall P (strip rt s).
Proof.
  intros H. unfold strip, rstrip.
  apply Forall_rev, lstrip_Forall, Forall_rev, lstrip_Forall, H.
Qed.

Lemma sub_from_Forall s : ∀ prev skip,
  Forall P s → Forall P (sub_from rt prev skip s).
Proof.
  induction s as [|c s IH]; intros prev skip H; [constructor|].
  inversion H as [|? ? Hc Hs]; subst. rewrite sub_from_cons.
  destruct skip; [|by apply IH].
  destruct (match_here rt prev (c :: s)) as [[|k]|]; constructor; auto.
Qed.

Lemma cleanup_pass_Forall s : Forall P s → Forall P (cleanup_pass rt s).
Proof. intros H. by apply strip_Forall, sub_from_Forall. Qed.

Lemma cleanup_loop_Forall fuel : ∀ s,
  Forall P s → Forall P (cleanup_loop rt fuel s).
Proof.
  induction fuel as [|fuel IH]; intros s H; [done|]. simpl.
  destruct (decide (cleanup_pass rt s = s)); [done|].
  by apply IH, cleanup_pass_Forall.
Qed.

End Kept.

(** *** Case folding *)

Lemma casefold_folded s : Forall (folded rt) s → casefold rt s = s.
Proof.
  induction 1 as [|c s Hc Hs IH]; [reflexivity|].
  unfold casefold in *. simpl. rewrite IH, Hc. reflexivity.
Qed.

Lemma folded_space : folded rt 32%N.
Proof. reflexivity. Qed.

Lemma ascii_fold_folded c d :
  (c < 128)%N → d ∈ casefold_char rt c → folded rt d.
Proof.
  intros Hc. unfold casefold_char, folded.
  destruct (N.ltb_spec c 128) as [_|]; [|lia].
  unfold casefold_char, between.
  destruct (N.leb_spec 65 c), (N.leb_spec c 90); simpl;
    intros ->%list_elem_of_singleton;
    repeat match goal with
    | |- context [N.ltb ?x ?y] => destruct (N.ltb_spec x y)
    | |- context [N.leb ?x ?y] => destruct (N.leb_spec x y)
    end; simpl; try reflexivity; try lia.
Qed.

End CleanupFacts.

(** C8: normalisation is idempotent, [cleanup (cleanup s) = cleanup s] for
    every string [s], on every runtime whose case folding is stable (what a
    code point folds to is left as it is by folding, as the Unicode tables
    have it; on the ASCII range this is proved, not assumed). *)
Theorem cleanup_idempotent (rt : Runtime) (s : str)
    (Hstable : ∀ c d, (128 ≤ c)%N → d ∈ uni_casefold rt c → casefold_char rt d = [d]) :
  cleanup rt (cleanup rt s) = cleanup rt s.
Proof.
  assert (Hfold : Forall (folded rt) (casefold rt s)).
  { unfold casefold. apply Forall_forall. intros d Hd.
    apply list_elem_of_In, in_flat_map in Hd as (c & _ & Hd).
    apply list_elem_of_In in Hd.
    destruct (N.ltb_spec c 128) as [Hc|Hc].
    - by apply (ascii_fold_folded rt c).
    - apply (Hstable c); [done|]. unfold casefold_char in Hd.
      destruct (N.ltb_spec c 128); [lia|done]. }
  assert (Hres : Forall (folded rt) (cleanup rt s)).
  { unfold cleanup. apply cleanup_loop_Forall; [apply folded_space|done]. }
  unfold cleanup at 1. rewrite (casefold_folded rt _ Hres).
  apply cleanup_loop_of_fixed, cleanup_fixed.
Qed.

Lemma ascii_only_stable c d :
  (128 ≤ c)%N → d ∈ uni_casefold ascii_only c → casefold_char ascii_only d = [d].
Proof.
  intros Hc ->%list_elem_of_singleton. unfold casefold_char.
  destruct (N.ltb_spec c 128); [lia|reflexivity].
Qed.

Lemma cleanup_idempotent_witness :
  cleanup ascii_only (cleanup ascii_only (lit "The <b>Lord</b> of the Rings!"))
  = cleanup ascii_only (lit "The <b>Lord</b> of the Rings!").
Proof. apply (cleanup_idempotent ascii_only _ ascii_only_stable). Defined.


(** ** The similarity ratio *)

Section MatcherBounds.

Import SequenceMatcher.

Lemma j2lenget_bound alo blo i j2len j :
  row_ok alo blo i j2len → blo ≤ j →
  j2lenget j2len j ≤ i - alo ∧ j2lenget j2len j ≤ j - blo.
Proof.
  intros Hok Hj. destruct j as [|j']; simpl; [lia|].
  destruct (j2len !! j') as [v|] eqn:E; simpl; [|lia].
  destruct (Hok _ _ E). lia.
Qed.

Lemma in_range_grow alo ahi ahi' blo bhi m :
  ahi ≤ ahi' → in_range alo ahi blo bhi m → in_range alo ahi' blo bhi m.
Proof. unfold in_range. lia. Qed.

Lemma scan_row_bounds alo i blo bhi j2len js : ∀ newj2len best,
  alo ≤ i →
  row_ok alo blo i j2len →
  row_ok alo blo (S i) newj2len →
  in_range alo (S i) blo bhi best →
  row_ok alo blo (S i) (scan_row j2len i blo bhi js newj2len best).1 ∧
  in_range alo (S i) blo bhi (scan_row j2len i blo bhi js newj2len best).2.
Proof.
  induction js as [|j js IH]; intros newj2len best Hi Hold Hnew Hbest; [done|].
  simpl scan_row. destruct (Nat.ltb_spec j blo); [by apply IH|].
  destruct (Nat.leb_spec bhi j); [done|].
  destruct (j2lenget_bound alo blo i j2len j Hold) as [Hk1 Hk2]; [done|].
  apply IH; [done|done| |].
  - intros j' v. rewrite lookup_insert. case_decide as Hj.
    + intros [= <-]. subst j'. lia.
    + apply Hnew.
  - destruct (Nat.ltb_spec (size best) (j2lenget j2len j + 1)); [|done].
    unfold in_range. simpl. lia.
Qed.

Lemma scan_rows_bounds a b alo blo bhi n : ∀ i j2len best,
  alo ≤ i →
  row_ok alo blo i j2len →
  in_range alo i blo bhi best →
  in_range alo (i + n) blo bhi (scan_rows a b blo bhi (seq i n) j2len best).
Proof.
  induction n as [|n IH]; intros i j2len best Hi Hold Hbest.
  - by rewrite Nat.add_0_r.
  - simpl seq. simpl scan_rows.
    assert (Hempty : row_ok alo blo (S i) ∅).
    { intros j v Hjv. by rewrite lookup_empty in Hjv. }
    assert (Hbest' : in_range alo (S i) blo bhi best).
    { apply (in_range_grow alo i); [lia|done]. }
    destruct (scan_row_bounds alo i blo bhi j2len
                (from_option (b2j b) [] (a !! i)) ∅ best Hi Hold Hempty Hbest')
      as [H1 H2].
    destruct (scan_row _ _ _ _ _ _ _) as [newj2len best'].
    replace (i + S n) with (S i + n) by lia. apply IH; [lia|done|done].
Qed.

Lemma extend_left_bounds junk a b alo ahi blo bhi besti : ∀ bestj bestsize,
  in_range alo ahi blo bhi (besti, bestj, bestsize) →
  in_range alo ahi blo bhi (extend_left junk a b alo blo besti bestj bestsize).
Proof.
  induction besti as [|i' IH]; intros bestj bestsize H; [done|].
  destruct bestj as [|j']; [done|]. simpl extend_left.
  destruct (Nat.ltb_spec alo (S i')); [|done].
  destruct (Nat.ltb_spec blo (S j')); [|done]. cbn [andb].
  destruct (eqb _ _ && _); [|done].
  apply IH. unfold in_range in *. simpl in *. lia.
Qed.

Lemma extend_right_bounds junk a b alo ahi blo bhi besti bestj room : ∀ bestsize,
  in_range alo ahi blo bhi (besti, bestj, bestsize) →
  in_range alo ahi blo bhi
    (besti, bestj, extend_right junk a b ahi bhi besti bestj room bestsize).
Proof.
  induction room as [|room IH]; intros bestsize H; [done|].
  simpl extend_right.
  destruct (Nat.ltb_spec (besti + bestsize) ahi); [|done].
  destruct (Nat.ltb_spec (bestj + bestsize) bhi); [|done]. cbn [andb].
  destruct (eqb _ _ && _); [|done].
  apply IH. unfold in_range in *. simpl in *. lia.
Qed.

(** The block found lies inside the ranges searched. *)
Lemma find_longest_match_bounds a b alo ahi blo bhi :
  alo ≤ ahi → blo ≤ bhi →
  in_range alo ahi blo bhi (find_longest_match a b alo ahi blo bhi).
Proof.
  intros Ha Hb. unfold find_longest_match.
  pose proof (scan_rows_bounds a b alo blo bhi (ahi - alo) alo ∅ (alo, blo, 0)) as H.
  replace (alo + (ahi - alo)) with ahi in H by lia.
  destruct (scan_rows _ _ _ _ _ _ _) as [[i1 j1] k1].
  assert (H1 : in_range alo ahi blo bhi (i1, j1, k1)).
  { apply H; [done| |].
    - intros j v Hjv. by rewrite lookup_empty in Hjv.
    - unfold in_range. simpl. lia. }
  pose proof (extend_left_bounds false a b alo ahi blo bhi i1 j1 k1 H1) as H2.
  destruct (extend_left false _ _ _ _ _ _ _) as [[i2 j2] k2].
  pose proof (extend_right_bounds false a b alo ahi blo bhi i2 j2
                (ahi - (i2 + k2)) k2 H2) as H3.
  set (k3 := extend_right false _ _ _ _ _ _ _ _) in *.
  pose proof (extend_left_bounds true a b alo ahi blo bhi i2 j2 k3 H3) as H4.
  destruct (extend_left true _ _ _ _ _ _ _) as [[i4 j4] k4].
  apply (extend_right_bounds true a b alo ahi blo bhi i4 j4 _ k4 H4).
Qed.

Lemma total_size_app l1 l2 : total_size (l1 ++ l2) = total_size l1 + total_size l2.
Proof.
  induction l1 as [|m l1 IH]; [reflexivity|].
  simpl. unfold total_size in *. simpl. rewrite IH. lia.
Qed.

Lemma total_size_perm l1 l2 : l1 ≡ₚ l2 → total_size l1 = total_size l2.
Proof.
  induction 1 as [|m l1 l2 _ IH|m1 m2 l|l1 l2 l3 _ IH1 _ IH2];
    unfold total_size in *; simpl; lia.
Qed.

Lemma total_size_collapse blocks : ∀ i1 j1 k1,
  total_size (collapse i1 j1 k1 blocks) = k1 + total_size blocks.
Proof.
  induction blocks as [|[[i2 j2] k2] blocks IH]; intros i1 j1 k1.
  - simpl. destruct (Nat.ltb_spec 0 k1); unfold total_size; simpl; unfold size; simpl; lia.
  - simpl collapse. destruct (_ && _).
    + rewrite IH. unfold total_size. simpl. unfold size. simpl. lia.
    + rewrite total_size_app, IH.
      destruct (Nat.ltb_spec 0 k1); unfold total_size; simpl; unfold size; simpl; lia.
Qed.

(** The blocks found and the ranges still pending never cover more than
    the two strings. *)
Lemma blocks_loop_total a b fuel : ∀ queue acc,
  Forall range_ok queue →
  total_size (blocks_loop fuel a b queue acc) ≤ total_size acc + pending_a queue ∧
  total_size (blocks_loop fuel a b queue acc) ≤ total_size acc + pending_b queue.
Proof.
  induction fuel as [|fuel IH]; intros queue acc Hq; [simpl; lia|].
  destruct queue as [|[[[alo ahi] blo] bhi] queue]; [simpl; lia|].
  inversion Hq as [|? ? [Ha Hb] Hq']; subst. simpl in Ha, Hb.
  simpl blocks_loop.
  pose proof (find_longest_match_bounds a b alo ahi blo bhi Ha Hb) as Hm.
  destruct (find_longest_match a b alo ahi blo bhi) as [[i j] k].
  unfold in_range in Hm. simpl in Hm.
  destruct (Nat.ltb_spec 0 k) as [Hk|Hk].
  - destruct ((alo <? i) && (blo <? j)); destruct ((i + k <? ahi) && (j + k <? bhi));
      match goal with
      | |- context [blocks_loop fuel a b ?q ?acc'] =>
        destruct (IH q acc') as [IHa IHb];
          [repeat (constructor; [unfold range_ok; simpl; lia|]); done|]
      end;
      rewrite total_size_app in IHa, IHb;
      change (total_size [(i, j, k)]) with (k + 0) in IHa, IHb;
      simpl pending_a in *; simpl pending_b in *; lia.
  - destruct (IH queue acc Hq') as [IHa IHb].
    simpl pending_a. simpl pending_b. lia.
Qed.

Lemma matches_bounded a b :
  total_size (get_matching_blocks a b) ≤ length a ∧
  total_size (get_matching_blocks a b) ≤ length b.
Proof.
  unfold get_matching_blocks.
  rewrite total_size_app, total_size_collapse.
  rewrite (total_size_perm _ _ (merge_sort_Permutation _ _)).
  destruct (blocks_loop_total a b (2 * length a + 1) [(0, length a, 0, length b)] [])
    as [Ha Hb].
  { constructor; [unfold range_ok; simpl; lia|constructor]. }
  change (total_size [(length a, length b, 0)]) with 0.
  change (total_size []) with 0 in Ha, Hb.
  change (pending_a [(0, length a, 0, length b)]) with (length a - 0 + 0) in Ha.
  change (pending_b [(0, length a, 0, length b)]) with (length b - 0 + 0) in Hb.
  lia.
Qed.

End MatcherBounds.

(** C7 (as stated, fails): the ratio depends on the order of its
    arguments.  "tide" and "diet" are left as they are by the
    normalisation; compared in one order they score 1/4, in the other
    1/2. *)
Lemma ratio_is_not_symmetric :
  cleanup ascii_only (lit "tide") = lit "tide" ∧
  cleanup ascii_only (lit "diet") = lit "diet" ∧
  SequenceMatcher.ratio (lit "tide") (lit "diet") = (2 # 8)%Q ∧
  SequenceMatcher.ratio (lit "diet") (lit "tide") = (4 # 8)%Q ∧
  ¬ (SequenceMatcher.ratio (lit "tide") (lit "diet")
     == SequenceMatcher.ratio (lit "diet") (lit "tide"))%Q.
Proof. vm_compute. repeat split; try reflexivity. discriminate. Qed.

(** C7 (amended): for every pair of strings the similarity ratio lies in
    the closed interval from 0 to 1.  (It is not symmetric.) *)
Theorem ratio_in_unit_interval (a b : str) :
  (0 <= SequenceMatcher.ratio a b)%Q ∧ (SequenceMatcher.ratio a b <= 1)%Q.
Proof.
  unfold SequenceMatcher.ratio.
  destruct (matches_bounded a b) as [Ha Hb].
  set (m := SequenceMatcher.total_size _) in *.
  unfold SequenceMatcher.calculate_ratio.
  destruct (length a + length b) as [|t] eqn:Et.
  - split; unfold Qle; simpl; lia.
  - split; unfold Qle; cbn [Qnum Qden]; lia.
Qed.

(** *** The loops use enough fuel *)

Section MatcherFuel.

Import SequenceMatcher.

(** [room] steps suffice for the loop that grows a block to the right. *)
Lemma extend_right_room junk a b ahi bhi besti bestj room1 : ∀ room2 bestsize,
  ahi - (besti + bestsize) ≤ room1 → ahi - (besti + bestsize) ≤ room2 →
  extend_right junk a b ahi bhi besti bestj room1 bestsize
  = extend_right junk a b ahi bhi besti bestj room2 bestsize.
Proof.
  induction room1 as [|room1 IH]; intros room2 bestsize H1 H2.
  - destruct room2 as [|room2]; [done|]. simpl.
    destruct (Nat.ltb_spec (besti + bestsize) ahi); [lia|done].
  - destruct room2 as [|room2]; simpl.
    + destruct (Nat.ltb_spec (besti + bestsize) ahi); [lia|done].
    + destruct (_ && _); [|done]. destruct (Nat.ltb_spec (besti + bestsize) ahi).
      * apply IH; lia.
      * apply IH; lia.
Qed.

(** Fuel above [work queue] empties the work list. *)
Lemma blocks_loop_fuel a b fuel1 : ∀ fuel2 queue acc,
  Forall range_ok queue → work queue ≤ fuel1 → work queue ≤ fuel2 →
  blocks_loop fuel1 a b queue acc = blocks_loop fuel2 a b queue acc.
Proof.
  induction fuel1 as [|fuel1 IH]; intros fuel2 queue acc Hq H1 H2.
  - destruct queue as [|[[[alo ahi] blo] bhi] queue]; [by destruct fuel2|].
    simpl in H1. lia.
  - destruct queue as [|[[[alo ahi] blo] bhi] queue]; [by destruct fuel2|].
    destruct fuel2 as [|fuel2]; [simpl in H2; lia|].
    inversion Hq as [|? ? [Ha Hb] Hq']; subst. simpl in Ha, Hb.
    simpl blocks_loop.
    pose proof (find_longest_match_bounds a b alo ahi blo bhi Ha Hb) as Hm.
    destruct (find_longest_match a b alo ahi blo bhi) as [[i j] k].
    unfold in_range in Hm. simpl in Hm. simpl in H1, H2.
    destruct (Nat.ltb_spec 0 k) as [Hk|Hk].
    + destruct ((alo <? i) && (blo <? j)); destruct ((i + k <? ahi) && (j + k <? bhi));
        apply IH; try (repeat (constructor; [unfold range_ok; simpl; lia|]); done);
        simpl; lia.
    + apply IH; [done|lia|lia].
Qed.

End MatcherFuel.

(** *** A string compared with itself *)

Section SelfMatch.

Import SequenceMatcher.

Context (x : str).

Lemma run_unfold j c :
  x !! j = Some c → bpopular x c = false → run x j = S (run_before x j).
Proof. intros H1 H2. destruct j; simpl; by rewrite H1, H2. Qed.

Lemma run_popular j c : x !! j = Some c → bpopular x c = true → run x j = 0.
Proof. intros H1 H2. destruct j; simpl; by rewrite H1, H2. Qed.

Lemma run_le j : run x j ≤ S j.
Proof.
  induction j as [|j IH]; simpl.
  - destruct (x !! 0); [|lia]. destruct (bpopular x _); lia.
  - destruct (x !! S j); [|lia]. destruct (bpopular x _); lia.
Qed.

Lemma positions_elem c b : ∀ off j,
  j ∈ positions c off b ↔ off ≤ j ∧ b !! (j - off) = Some c.
Proof.
  induction b as [|y b IH]; intros off j; simpl.
  - rewrite elem_of_nil. split; [done|]. intros [_ H]. done.
  - destruct (N.eqb_spec y c) as [->|Hne].
    + rewrite elem_of_cons, IH. split.
      * intros [->|[Hle H]].
        -- split; [lia|]. by rewrite Nat.sub_diag.
        -- split; [lia|]. replace (j - off) with (S (j - S off)) by lia. done.
      * intros [Hle H]. destruct (decide (j = off)) as [->|]; [by left|right].
        split; [lia|]. replace (j - off) with (S (j - S off)) in H by lia. done.
    + rewrite IH. split.
      * intros [Hle H]. split; [lia|].
        replace (j - off) with (S (j - S off)) by lia. done.
      * intros [Hle H]. destruct (decide (j = off)) as [->|].
        -- rewrite Nat.sub_diag in H. simpl in H. congruence.
        -- split; [lia|]. replace (j - off) with (S (j - S off)) in H by lia. done.
Qed.

Lemma positions_sorted c b : ∀ off, StronglySorted lt (positions c off b).
Proof.
  induction b as [|y b IH]; intros off; simpl; [constructor|].
  destruct (y =? c)%N; [|apply IH].
  constructor; [apply IH|]. apply Forall_forall. intros j Hj.
  apply positions_elem in Hj. lia.
Qed.

(** One row of the comparison of [x] with itself. *)
Lemma scan_row_diag i c j2len :
  x !! i = Some c → bpopular x c = false → diag_row_ok x i j2len →
  ∀ rest newj2len best,
    StronglySorted lt rest → (∀ j, j ∈ rest → x !! j = Some c) →
    diag_inv x i rest newj2len best →
    diag_inv x i [] (scan_row j2len i 0 (length x) rest newj2len best).1
                    (scan_row j2len i 0 (length x) rest newj2len best).2.
Proof.
  intros Hi Hc Hprev. induction rest as [|j rest IH];
    intros newj2len best Hsorted Hrest Hinv; [done|].
  inversion Hsorted as [|? ? Hsorted' Hlt]; subst.
  assert (Hj : x !! j = Some c) by (apply Hrest; left).
  assert (Hjn : j < length x) by (by apply lookup_lt_Some in Hj).
  simpl scan_row. destruct (Nat.leb_spec (length x) j); [lia|].
  assert (Hrun : run x j = S (run_before x j)) by by apply (run_unfold j c).
  assert (Hruni : run x i = S (run_before x i)) by by apply (run_unfold i c).
  destruct Hinv as (Hd & Hend & Hseen & Hentries & Hcase).
  destruct (Hprev j) as (Hlow & Hmid & Hhigh).
  apply IH; [done|intros; apply Hrest; by right|].
  set (k := j2lenget j2len j + 1).
  destruct (Nat.lt_total j i) as [Hji|[->|Hji]].
  - (* below the diagonal: nothing new *)
    specialize (Hlow Hji). pose proof (Hseen j Hji) as Hsj.
    destruct (Nat.ltb_spec (size best) k); [unfold k in *; lia|].
    split_and!; try done.
    + intros j' v. rewrite lookup_insert. case_decide as Hj'.
      * intros [= <-]. subst j'. unfold k. split; intros; lia.
      * apply Hentries.
    + destruct Hcase as [[Hin Hnone]|[Hle Hsome]].
      * left. apply elem_of_cons in Hin as [->|Hin]; [lia|].
        split; [done|]. rewrite lookup_insert_ne; [done|lia].
      * right. split; [done|]. rewrite lookup_insert_ne; [done|lia].
  - (* on the diagonal *)
    specialize (Hmid eq_refl). pose proof (run_le i) as Hrl.
    assert (Hk : k = run x i) by (unfold k; lia).
    destruct (Nat.ltb_spec (size best) k).
    + unfold diag_inv. cbn [fst snd size]. split_and!; try done; try lia.
      * intros j' Hj'. specialize (Hseen j' Hj'). lia.
      * intros j' v. rewrite lookup_insert. case_decide as Hj'.
        -- intros [= <-]. subst j'. split; intros; lia.
        -- apply Hentries.
      * right. split; [lia|]. rewrite lookup_insert_eq. by rewrite Hk.
    + split_and!; try done.
      * intros j' v. rewrite lookup_insert. case_decide as Hj'.
        -- intros [= <-]. subst j'. split; intros; lia.
        -- apply Hentries.
      * right. split; [lia|]. rewrite lookup_insert_eq. by rewrite Hk.
  - (* above the diagonal: the diagonal entry of this row came before *)
    specialize (Hhigh Hji).
    destruct Hcase as [[Hin Hnone]|[Hle Hsome]].
    { apply elem_of_cons in Hin as [->|Hin]; [lia|].
      rewrite Forall_forall in Hlt. specialize (Hlt i Hin). lia. }
    destruct (Nat.ltb_spec (size best) k); [unfold k in *; lia|].
    split_and!; try done.
    + intros j' v. rewrite lookup_insert. case_decide as Hj'.
      * intros [= <-]. subst j'. unfold k. split; intros; lia.
      * apply Hentries.
    + right. split; [done|]. rewrite lookup_insert_ne; [done|lia].
Qed.

Lemma diag_row_ok_next i nj best :
  diag_inv x i [] nj best → diag_row_ok x (S i) nj.
Proof.
  intros (_ & _ & _ & Hentries & Hcase) j.
  destruct Hcase as [[Hin _]|[_ Hsome]]; [by apply elem_of_nil in Hin|].
  destruct j as [|j']; simpl.
  - split_and!; intros; lia.
  - split_and!.
    + intros Hj. destruct (nj !! j') as [v|] eqn:E; simpl; [|lia].
      destruct (Hentries _ _ E) as [H1 _]. apply H1. lia.
    + intros [= ->]. by rewrite Hsome.
    + intros Hj. destruct (nj !! j') as [v|] eqn:E; simpl; [|lia].
      destruct (Hentries _ _ E) as [_ H2]. apply H2. lia.
Qed.

(** All rows: the best block lies on the diagonal. *)
Lemma scan_rows_diag n : ∀ i j2len best,
  i + n = length x →
  diag_row_ok x i j2len →
  best.1.1 = best.1.2 → best.1.1 + size best ≤ i →
  (∀ j, j < i → run x j ≤ size best) →
  let best' := scan_rows x x 0 (length x) (seq i n) j2len best in
  best'.1.1 = best'.1.2 ∧ best'.1.1 + size best' ≤ length x.
Proof.
  induction n as [|n IH]; intros i j2len best Hn Hprev Hd Hend Hseen.
  - simpl. split; [done|lia].
  - cbn [seq scan_rows].
    destruct (lookup_lt_is_Some_2 x i) as [c Hc]; [lia|]. rewrite Hc.
    cbn [from_option]. unfold b2j.
    destruct (bpopular x c) eqn:Hpop.
    + (* a popular element: the row is empty *)
      simpl scan_row. apply IH; [lia| |done|lia|].
      * intros j. destruct j as [|j']; simpl.
        -- split_and!; intros; lia.
        -- rewrite lookup_empty. simpl. split_and!; try (intros; lia).
           intros [= ->]. by rewrite (run_popular i c).
      * intros j Hj. destruct (decide (j = i)) as [->|].
        -- rewrite (run_popular i c); [lia|done|done].
        -- apply Hseen. lia.
    + assert (Hinv : diag_inv x i (positions c 0 x) ∅ best).
      { split_and!; [done|lia|done| |].
        - intros j v Hjv. by rewrite lookup_empty in Hjv.
        - left. split; [|apply lookup_empty].
          apply positions_elem. split; [lia|]. by rewrite Nat.sub_0_r. }
      pose proof (scan_row_diag i c j2len Hc Hpop Hprev (positions c 0 x) ∅ best
                    (positions_sorted c x 0)) as Hrow.
      destruct (scan_row j2len i 0 (length x) (positions c 0 x) ∅ best)
        as [nj best1] eqn:Erow.
      simpl in Hrow.
      assert (Hinv1 : diag_inv x i [] nj best1).
      { apply Hrow; [|done]. intros j Hj. apply positions_elem in Hj as [_ Hj].
        by rewrite Nat.sub_0_r in Hj. }
      pose proof (diag_row_ok_next i nj best1 Hinv1) as Hnext.
      destruct Hinv1 as (Hd1 & Hend1 & Hseen1 & _ & Hcase1).
      apply IH; [lia|done|done|lia|].
      intros j Hj. destruct (decide (j = i)) as [->|]; [|apply Hseen1; lia].
      destruct Hcase1 as [[Hin _]|[Hle _]]; [by apply elem_of_nil in Hin|done].
Qed.

Lemma same_at_self i : i < length x → same_at x i x i = true.
Proof.
  intros Hi. unfold same_at.
  destruct (lookup_lt_is_Some_2 x i Hi) as [c ->]. apply N.eqb_refl.
Qed.

Lemma junk_at_false b j : junk_at b j = false.
Proof. unfold junk_at. by destruct (b !! j). Qed.

Lemma extend_left_self i : ∀ k,
  i ≤ length x → extend_left false x x 0 0 i i k = (0, 0, k + i).
Proof.
  induction i as [|i IH]; intros k Hi; simpl.
  - f_equal. lia.
  - rewrite junk_at_false, same_at_self by lia. simpl. rewrite IH by lia.
    f_equal. lia.
Qed.

Lemma extend_right_self room : ∀ k,
  k + room = length x →
  extend_right false x x (length x) (length x) 0 0 room k = length x.
Proof.
  induction room as [|room IH]; intros k Hk; simpl; [lia|].
  destruct (Nat.ltb_spec k (length x)); [|lia].
  rewrite junk_at_false, same_at_self by lia. simpl. apply IH. lia.
Qed.

(** The longest block of a string against itself is the whole string. *)
Lemma find_longest_match_self :
  find_longest_match x x 0 (length x) 0 (length x) = (0, 0, length x).
Proof.
  unfold find_longest_match. rewrite Nat.sub_0_r.
  pose proof (scan_rows_diag (length x) 0 ∅ (0, 0, 0)) as H.
  destruct (scan_rows x x 0 (length x) (seq 0 (length x)) ∅ (0, 0, 0))
    as [[i1 j1] k1].
  destruct H as [Hd Hend]; try done.
  { intros j. destruct j as [|j']; simpl; [split_and!; intros; lia|].
    rewrite lookup_empty. simpl. split_and!; intros; lia. }
  { intros j Hj. lia. }
  simpl in Hd, Hend. unfold size in Hend. simpl in Hend. subst j1.
  rewrite extend_left_self by lia.
  rewrite (extend_right_self (length x - (0 + (k1 + i1))) (k1 + i1)) by lia.
  simpl extend_left. cbv beta iota zeta. rewrite Nat.add_0_l, Nat.sub_diag. reflexivity.
Qed.

Lemma get_matching_blocks_self :
  x ≠ [] →
  get_matching_blocks x x = [(0, 0, length x); (length x, length x, 0)].
Proof.
  intros Hx. assert (Hlen : 0 < length x) by (destruct x; [done|simpl; lia]).
  unfold get_matching_blocks.
  replace (2 * length x + 1) with (S (2 * length x)) by lia.
  cbn [blocks_loop]. rewrite find_longest_match_self.
  destruct (Nat.ltb_spec 0 (length x)) as [_|]; [|lia].
  rewrite Nat.add_0_l, !Nat.ltb_irrefl. cbn [andb app].
  assert (Hend : ∀ fuel acc, blocks_loop fuel x x [] acc = acc)
    by (by intros [|?] ?).
  rewrite Hend. cbn. destruct (length x); [lia|done].
Qed.

Lemma ratio_self : x ≠ [] → Qle_bool (87 # 100) (ratio x x) = true.
Proof.
  intros Hx. unfold ratio. rewrite (get_matching_blocks_self Hx).
  assert (Hlen : 0 < length x) by (destruct x; [done|simpl; lia]).
  unfold total_size. cbn [foldr size snd]. unfold calculate_ratio.
  destruct (length x + length x) as [|t] eqn:Et; [lia|].
  apply Qle_bool_iff. unfold Qle. cbn [Qnum Qden]. lia.
Qed.

End SelfMatch.

(** ** The answer check *)

(** C6 (as stated, fails): an expected answer that the normalisation
    empties, such as "the" or "...", is rejected when it is submitted
    exactly. *)
Lemma exact_answer_rejected :
  cleanup ascii_only (lit "the") = [] ∧
  Question.check ascii_only (Question.mk 0 (lit "Trivia: Which article?") (lit "the"))
    (lit "the") = false ∧
  Question.check ascii_only (Question.mk 0 (lit "Trivia: Morse for S?") (lit "..."))
    (lit "...") = false.
Proof. vm_compute. repeat split; reflexivity. Qed.

(** C6 (amended): for every expected answer [e], the empty submission is
    rejected, and submitting exactly [e] is accepted if and only if the
    normalisation of [e] is not empty. *)
Theorem check_empty_and_exact (rt : Runtime) (q : Question.t) :
  Question.check rt q [] = false ∧
  (Question.check rt q (Question.answer q) = true ↔
   cleanup rt (Question.answer q) ≠ []).
Proof.
  split.
  - reflexivity.
  - unfold Question.check, Question.cleanup.
    destruct (decide (cleanup rt (Question.answer q) = [])) as [He|He].
    + rewrite He. cbn. split; [done|]. intros H. by destruct H.
    + rewrite bool_decide_eq_false_2 by done.
      destruct (cleanup rt (Question.answer q)) as [|c s] eqn:E; [done|].
      cbn [length Nat.ltb Nat.leb orb]. split; [done|]. intros _.
      by apply ratio_self.
Qed.


(** ** The controller *)

(** C1 (fails on the code).  The routing predicate admits every chat line
    as soon as a game exists, but a game has no current question until a
    pulse announces one: a chat line that arrives between [!trivia] and the
    first pulse is routed to [Game.check], which raises
    [ValueError("no question asked")]. *)
Theorem chat_line_before_first_pulse_raises :
  TriviaCommand.game just_started = Some (Game.new 3) ∧
  TriviaCommand.handles just_started (lit "hello") = true ∧
  (TriviaCommand.call ascii_only silent true just_started
     (lit "hello") [] (says "bob" "hello")).1.1
  = Raise (ValueError "no question asked").
Proof. vm_compute. repeat split; reflexivity. Qed.

(** C2 (fails on the code).  With the pool exhausted and both sources
    silent, the announcing pulse posts the missing question ([None]) and
    arms the deadline; the pulse after the deadline raises
    [AttributeError] on [None.answer]. *)
Theorem pulse_with_exhausted_pool :
  (Pool.question ascii_only silent None).1 = None ∧
  TriviaCommand.onpulse ascii_only silent 100 awaiting_announce
  = (Return (), TriviaCommand.mk (Some (Game.new 5)) 130 (Some Pool.new),
     [post "{}" [VNone]]) ∧
  (TriviaCommand.onpulse ascii_only silent 131
     (TriviaCommand.mk (Some (Game.new 5)) 130 (Some Pool.new))).1.1
  = Raise (AttributeError "'NoneType' object has no attribute 'answer'").
Proof. vm_compute. repeat split; reflexivity. Qed.

(** ** Scoring *)

(** C3 (as stated, fails): alice has 2 points, strictly below the
    threshold 3, and her correct answer yields [WON], not [CORRECT]. *)
Lemma below_threshold_yet_won :
  Game.count match_point alice = 2%Z ∧
  (Game.count match_point alice < Game.towin match_point)%Z ∧
  Question.check ascii_only paris (lit "paris") = true ∧
  (Game.check ascii_only match_point alice (lit "paris")).1 = Return WON.
Proof. vm_compute. repeat split; reflexivity. Qed.

(** C3 (amended): a correct answer adds one to the player's score and
    yields [WON] exactly when the score before the check plus one reaches
    the threshold, [CORRECT] otherwise; so the answer that brings the score
    to [towin] wins already, and so does every later one. *)
Theorem correct_answer_result (rt : Runtime) (g : Game.t) (q : Question.t)
    (p a : str)
    (Hq : Game._question g = Some q)
    (Hok : Question.check rt q a = true) :
  ∃ g', Game.count g' p = (Game.count g p + 1)%Z ∧
    Game.towin g' = Game.towin g ∧
    Game.check rt g p a =
      (Return (if (Game.towin g <=? Game.count g p + 1)%Z then WON else CORRECT), g') ∧
    ((Game.towin g ≤ Game.count g p)%Z → Game.check rt g p a = (Return WON, g')).
Proof.
  destruct g as [tw cs oq]. cbn [Game._question Game.towin] in *. subst oq.
  set (g := Game.mk tw cs (Some q)).
  set (g' := Game.mk tw (<[p := (Game.count g p + 1)%Z]> cs) (Some q)).
  assert (Hcount : Game.count g' p = (Game.count g p + 1)%Z).
  { unfold Game.count at 1. cbn [Game.counts g']. by rewrite lookup_insert_eq. }
  assert (Hcheck : Game.check rt g p a =
            (Return (if (tw <=? Game.count g p + 1)%Z then WON else CORRECT), g')).
  { unfold Game.check. cbn [Game._question g]. rewrite Hok.
    cbn [Game.towin Game.counts g]. fold g g'. rewrite Hcount.
    by destruct (tw <=? _)%Z. }
  exists g'. split_and!; try done.
  intros Hle. rewrite Hcheck.
  destruct (Z.leb_spec tw (Game.count g p + 1)); [done|lia].
Qed.

Lemma correct_answer_result_witness :
  ∃ g', Game.count g' alice = (Game.count match_point alice + 1)%Z ∧
    Game.towin g' = Game.towin match_point ∧
    Game.check ascii_only match_point alice (lit "paris") =
      (Return (if (Game.towin match_point <=? Game.count match_point alice + 1)%Z
               then WON else CORRECT), g') ∧
    ((Game.towin match_point ≤ Game.count match_point alice)%Z →
     Game.check ascii_only match_point alice (lit "paris") = (Return WON, g')).
Proof.
  apply (correct_answer_result ascii_only match_point paris alice (lit "paris")).
  - reflexivity.
  - vm_compute. reflexivity.
Defined.

(** C10: a rejected answer changes nothing and is not answered.  With a
    game running and a question open, a chat line that is not the start
    command and that the matcher rejects makes [Game.check] return
    [INCORRECT] with the game (scores and question) as it was, and makes
    the controller return [False] with its state (game, deadline, pool) as
    it was and nothing posted. *)
Theorem incorrect_answer_is_ignored (rt : Runtime) (net : Pool.Net)
    (allowed : bool) (self : TriviaCommand.t) (g : Game.t) (q : Question.t)
    (cmd remainder : str) (m : Message)
    (Hgame : TriviaCommand.game self = Some g)
    (Hq : Game._question g = Some q)
    (Hcmd : cmd ≠ lit "!trivia")
    (Hwrong : Question.check rt q (msg m) = false) :
  Game.check rt g (nick m) (msg m) = (Return INCORRECT, g) ∧
  TriviaCommand.call rt net allowed self cmd remainder m = (Return false, self, []).
Proof.
  assert (Hcheck : Game.check rt g (nick m) (msg m) = (Return INCORRECT, g)).
  { unfold Game.check. by rewrite Hq, Hwrong. }
  split; [done|]. unfold TriviaCommand.call.
  destruct allowed; [|reflexivity]. cbn [negb].
  rewrite bool_decide_eq_false_2 by done. rewrite Hgame, Hcheck.
  destruct self; simpl in *. by subst.
Qed.

Lemma incorrect_answer_is_ignored_witness :
  Game.check ascii_only (Game.mk 5 ∅ (Some paris)) (lit "bob") (lit "london")
    = (Return INCORRECT, Game.mk 5 ∅ (Some paris)) ∧
  TriviaCommand.call ascii_only silent true awaiting_answer (lit "london") []
    (says "bob" "london") = (Return false, awaiting_answer, []).
Proof.
  apply (incorrect_answer_is_ignored ascii_only silent true awaiting_answer
           (Game.mk 5 ∅ (Some paris)) paris (lit "london") [] (says "bob" "london")).
  - reflexivity.
  - reflexivity.
  - vm_compute. discriminate.
  - vm_compute. reflexivity.
Defined.

(** ** The start command *)

(** C4 (as stated, fails): the argument "0" parses to the integer 0,
    which is not positive, and the game is created with threshold 1,
    not 5. *)
Lemma start_with_zero_gives_one :
  py_int ascii_only (strip ascii_only (lit "0")) = Some 0%Z ∧
  TriviaCommand.game
    (TriviaCommand.call ascii_only silent true (TriviaCommand.new None)
       (lit "!trivia") (lit "0") (says "alice" "!trivia 0")).1.2
  = Some (Game.new 1).
Proof. vm_compute. split; reflexivity. Qed.

(** C4 (amended): on a start command received while no game is active, a
    new game is created and the deadline is unset; its threshold is the
    integer the trimmed argument parses to, raised to 1 when that integer
    is not positive, and the default 5 when the argument does not parse. *)
Theorem start_threshold (rt : Runtime) (net : Pool.Net) (self : TriviaCommand.t)
    (remainder : str) (m : Message)
    (Hidle : TriviaCommand.game self = None) :
  ∃ towin,
    TriviaCommand.call rt net true self (lit "!trivia") remainder m
    = (Return true, TriviaCommand.mk (Some (Game.new towin)) 0 (TriviaCommand.pool self),
       [post "Started a trivia with {} to win" [VInt towin]]) ∧
    (∀ n, py_int rt (strip rt remainder) = Some n → (n ≤ 0)%Z → towin = 1%Z) ∧
    (∀ n, py_int rt (strip rt remainder) = Some n → (1 ≤ n)%Z → towin = n) ∧
    (py_int rt (strip rt remainder) = None → towin = 5%Z).
Proof.
  unfold TriviaCommand.call. cbn [negb]. rewrite bool_decide_eq_true_2 by done.
  rewrite Hidle.
  destruct (py_int rt (strip rt remainder)) as [n|]; eexists; split_and!;
    try reflexivity; try discriminate; intros k [= ->] Hk; lia.
Qed.

Lemma start_threshold_witness :
  ∃ towin,
    TriviaCommand.call ascii_only silent true (TriviaCommand.new None)
      (lit "!trivia") (lit "-2") (says "alice" "!trivia -2")
    = (Return true, TriviaCommand.mk (Some (Game.new towin)) 0 None,
       [post "Started a trivia with {} to win" [VInt towin]]) ∧
    (∀ n, py_int ascii_only (strip ascii_only (lit "-2")) = Some n → (n ≤ 0)%Z → towin = 1%Z) ∧
    (∀ n, py_int ascii_only (strip ascii_only (lit "-2")) = Some n → (1 ≤ n)%Z → towin = n) ∧
    (py_int ascii_only (strip ascii_only (lit "-2")) = None → towin = 5%Z).
Proof.
  apply (start_threshold ascii_only silent (TriviaCommand.new None) (lit "-2")
           (says "alice" "!trivia -2")).
  reflexivity.
Defined.

(** ** The pulse *)

Lemma deadline_armed (now t : Q) :
  ¬ (now + TriviaCommand.timeout == 0)%Q → (t < now + TriviaCommand.timeout)%Q →
  Qeq_bool (now + TriviaCommand.timeout) 0 = false ∧
  TriviaCommand.Qgt_bool (now + TriviaCommand.timeout) t = true.
Proof.
  intros Hnow Ht. split.
  - destruct (Qeq_bool (now + TriviaCommand.timeout) 0) eqn:E; [|done].
    apply Qeq_bool_iff in E. done.
  - unfold TriviaCommand.Qgt_bool.
    destruct (Qle_bool (now + TriviaCommand.timeout) t) eqn:E; [|done].
    apply Qle_bool_iff in E. exfalso. by apply (Qlt_not_le _ _ Ht).
Qed.

(** Pulses before the deadline do nothing. *)
Lemma pulses_before_deadline (rt : Runtime) (g : Game.t) (pool : option Pool.t)
    (now : Q) (later : list (Pool.Net * Q)) :
  ¬ (now + TriviaCommand.timeout == 0)%Q →
  Forall (λ tick, (tick.2 < now + TriviaCommand.timeout)%Q) later →
  TriviaCommand.onpulses rt later
    (TriviaCommand.mk (Some g) (now + TriviaCommand.timeout) pool)
  = (TriviaCommand.mk (Some g) (now + TriviaCommand.timeout) pool, []).
Proof.
  intros Hnow. induction 1 as [|[net t] later Ht _ IH]; [reflexivity|].
  destruct (deadline_armed now t Hnow Ht) as [H0 Hgt].
  cbn [TriviaCommand.onpulses]. unfold TriviaCommand.onpulse.
  cbn [TriviaCommand.game TriviaCommand.deadline].
  rewrite H0, Hgt. cbn [negb]. by rewrite IH.
Qed.

(** [list.pop()] hands out the last element. *)
Lemma pop_snoc {A} (front : list A) (x : A) : Pool.pop (front ++ [x]) = Some (x, front).
Proof. unfold Pool.pop. rewrite rev_app_distr. simpl. by rewrite rev_involutive. Qed.

(** The question drawn is the last one of the stock, and the rest stays. *)
Lemma question_of_stock (rt : Runtime) (net : Pool.Net) (pool : option Pool.t)
    (front : list Question.t) (q : Question.t) :
  stock rt net pool = front ++ [q] →
  Pool.question rt net pool = (Some q, Some (Pool.mk front)).
Proof.
  unfold stock, Pool.question, Pool.get_question. intros H.
  destruct (bool_decide _); by rewrite H, pop_snoc.
Qed.

(** C9: with a game active and the deadline unset, the first pulse sets
    the deadline to now plus the timeout of 30 and posts the question once:
    the question [q] that the game holds or, when it holds none, the one
    that is last in the stock of the pool, which is taken from there.
    However many pulses follow before that deadline, none of them posts or
    changes the state.  (The deadline set is not the value 0 that stands
    for "unset": the wall clock does not read 30 before the epoch.  A pool
    that has no question to give even after a refill is a case of its
    own.) *)
Theorem announce_once (rt : Runtime) (self : TriviaCommand.t) (g : Game.t)
    (net : Pool.Net) (now : Q) (later : list (Pool.Net * Q))
    (q : Question.t) (pool' : option Pool.t)
    (Hgame : TriviaCommand.game self = Some g)
    (Hunset : Qeq_bool (TriviaCommand.deadline self) 0 = true)
    (Hq : (Game._question g = Some q ∧ pool' = TriviaCommand.pool self) ∨
          (Game._question g = None ∧
           ∃ front, stock rt net (TriviaCommand.pool self) = front ++ [q] ∧
                    pool' = Some (Pool.mk front)))
    (Hnow : ¬ (now + 30 == 0)%Q)
    (Hlater : Forall (λ tick, (tick.2 < now + 30)%Q) later) :
  TriviaCommand.onpulse rt net now self
  = (Return (),
     TriviaCommand.mk (Some (Game.mk (Game.towin g) (Game.counts g) (Some q)))
       (now + 30) pool',
     [post "{}" [VQuestion q]]) ∧
  TriviaCommand.onpulses rt ((net, now) :: later) self
  = (TriviaCommand.mk (Some (Game.mk (Game.towin g) (Game.counts g) (Some q)))
       (now + 30) pool',
     [post "{}" [VQuestion q]]).
Proof.
  assert (Eq : Game.question rt net g (TriviaCommand.pool self)
    = (Some q, Game.mk (Game.towin g) (Game.counts g) (Some q), pool')).
  { unfold Game.question.
    destruct Hq as [[Hq ->]|[Hq (front & Hstock & ->)]]; rewrite Hq.
    - destruct g as [tw cs qq]. cbn in Hq |- *. by rewrite Hq.
    - by rewrite (question_of_stock _ _ _ _ _ Hstock). }
  assert (H1 : TriviaCommand.onpulse rt net now self
    = (Return (),
       TriviaCommand.mk (Some (Game.mk (Game.towin g) (Game.counts g) (Some q)))
         (now + 30) pool',
       [post "{}" [VQuestion q]])).
  { unfold TriviaCommand.onpulse. by rewrite Hgame, Hunset, Eq. }
  split; [done|]. cbn [TriviaCommand.onpulses]. rewrite H1.
  change 30%Q with TriviaCommand.timeout.
  by rewrite (pulses_before_deadline rt _ pool' now later Hnow Hlater).
Qed.

Lemma announce_once_witness :
  TriviaCommand.onpulse ascii_only (jservice_only [cheap]) 100 awaiting_announce
  = (Return (),
     TriviaCommand.mk
       (Some (Game.mk (Game.towin (Game.new 5)) (Game.counts (Game.new 5))
                (Some (Question.mk 0 (lit "Trivia: Capital of France?") (lit "Paris")))))
       (100 + 30) (Some (Pool.mk [])),
     [post "{}"
        [VQuestion (Question.mk 0 (lit "Trivia: Capital of France?") (lit "Paris"))]]) ∧
  TriviaCommand.onpulses ascii_only
    ((jservice_only [cheap], 100%Q) :: [(silent, 105%Q); (silent, 129%Q)])
    awaiting_announce
  = (TriviaCommand.mk
       (Some (Game.mk (Game.towin (Game.new 5)) (Game.counts (Game.new 5))
                (Some (Question.mk 0 (lit "Trivia: Capital of France?") (lit "Paris")))))
       (100 + 30) (Some (Pool.mk [])),
     [post "{}"
        [VQuestion (Question.mk 0 (lit "Trivia: Capital of France?") (lit "Paris"))]]).
Proof.
  apply (announce_once ascii_only awaiting_announce (Game.new 5)
           (jservice_only [cheap]) 100 [(silent, 105%Q); (silent, 129%Q)]
           (Question.mk 0 (lit "Trivia: Capital of France?") (lit "Paris"))
           (Some (Pool.mk []))).
  - reflexivity.
  - reflexivity.
  - right. split; [reflexivity|]. exists []. split; reflexivity.
  - intros H. vm_compute in H. discriminate.
  - repeat constructor; vm_compute; reflexivity.
Defined.

(** ** Seeding the pool *)

(** C5 (as stated, fails): an item of the second source without a point
    value, or with the value 0, is given the value 1000 and skipped; an
    item worth 200 is enqueued. *)
Lemma valueless_items_are_skipped :
  Pool.questions (Pool.seed ascii_only (jservice_only [no_value]) Pool.new) = [] ∧
  Pool.questions (Pool.seed ascii_only (jservice_only [zero_value]) Pool.new) = [] ∧
  Pool.questions (Pool.seed ascii_only (jservice_only [cheap]) Pool.new)
  = [Question.mk 0 (lit "Trivia: Capital of France?") (lit "Paris")].
Proof. vm_compute. repeat split; reflexivity. Qed.

Lemma of_jservice_Some (i : Pool.ItemB) (q : Question.t) :
  Pool.of_jservice i = Some q ↔
  (∃ v, Pool.value i = Some v ∧ v ≠ 0%Z ∧ (v ≤ 800)%Z) ∧
  length (lit "Trivia: " ++ Pool.b_question i) ≤ 300 ∧
  q = Question.mk 0 (lit "Trivia: " ++ Pool.b_question i) (Pool.b_answer i).
Proof.
  unfold Pool.of_jservice.
  destruct (Pool.value i) as [v|] eqn:Ev.
  - destruct (decide (v = 0%Z)) as [->|Hv].
    + cbn. split; [done|]. intros [(v & [= <-] & ? & _) _]. done.
    + assert (Hm : match v with 0%Z => 1000%Z | _ => v end = v) by by destruct v.
      rewrite Hm. destruct (Z.ltb_spec 800 v).
      * split; [done|]. intros [(v' & [= <-] & _ & ?) _]. lia.
      * destruct (Nat.ltb_spec 300 (length (lit "Trivia: " ++ Pool.b_question i))).
        -- split; [done|]. intros (_ & ? & _). lia.
        -- split.
           ++ intros [= <-]. split_and!; [|lia|done]. exists v. split_and!; [done|done|lia].
           ++ intros (_ & _ & ->). done.
  - cbn. split; [done|]. intros [(v & ? & _) _]. done.
Qed.

(** C5 (amended): during a seed the items of the second source are skipped
    exactly when their point value exceeds 800, where an item with a
    missing or zero point value counts as 1000 and is therefore skipped, or
    when the rendered question is longer than 300 characters.  Whatever
    permutation the shuffle applies, the pool after the seed holds what it
    held before, what the first source added, and one question for each
    item of the second source that has a non-zero value of at most 800 and
    a rendered question of at most 300 characters. *)
Theorem seed_keeps_cheap_items (rt : Runtime) (net : Pool.Net) (self : Pool.t)
    (items : list Pool.ItemB) (q : Question.t)
    (Hitems : Pool.jservice net = Some items)
    (Hshuffle : ∀ l, Pool.shuffle_questions net l ≡ₚ l) :
  q ∈ Pool.questions (Pool.seed rt net self) ↔
    q ∈ Pool.questions self ∨
    q ∈ omap (Pool.of_opentdb rt net) (default [] (Pool.opentdb net)) ∨
    ∃ i, i ∈ items ∧
      (∃ v, Pool.value i = Some v ∧ v ≠ 0%Z ∧ (v ≤ 800)%Z) ∧
      length (lit "Trivia: " ++ Pool.b_question i) ≤ 300 ∧
      q = Question.mk 0 (lit "Trivia: " ++ Pool.b_question i) (Pool.b_answer i).
Proof.
  unfold Pool.seed. rewrite Hitems. cbn [Pool.questions].
  rewrite (Hshuffle _). rewrite elem_of_app, list_elem_of_omap.
  setoid_rewrite of_jservice_Some.
  destruct (Pool.opentdb net) as [res|]; cbn [default from_option].
  - rewrite elem_of_app. cbn [omap]. split.
    + intros [[?|?]|(i & ? & ?)]; [by left|by right; left|right; right; by exists i].
    + intros [?|[?|(i & ? & ?)]]; [by left; left|by left; right|right; by exists i].
  - split.
    + intros [?|(i & ? & ?)]; [by left|right; right; by exists i].
    + intros [?|[H|(i & ? & ?)]]; [by left| |right; by exists i].
      cbn in H. by apply elem_of_nil in H.
Qed.

Lemma seed_keeps_cheap_items_witness :
  paris ∈ Pool.questions
            (Pool.seed ascii_only (jservice_only [no_value; cheap]) (Pool.mk [paris])) ↔
    paris ∈ Pool.questions (Pool.mk [paris]) ∨
    paris ∈ omap (Pool.of_opentdb ascii_only (jservice_only [no_value; cheap]))
              (default [] (Pool.opentdb (jservice_only [no_value; cheap]))) ∨
    ∃ i, i ∈ [no_value; cheap] ∧
      (∃ v, Pool.value i = Some v ∧ v ≠ 0%Z ∧ (v ≤ 800)%Z) ∧
      length (lit "Trivia: " ++ Pool.b_question i) ≤ 300 ∧
      paris = Question.mk 0 (lit "Trivia: " ++ Pool.b_question i) (Pool.b_answer i).
Proof.
  apply (seed_keeps_cheap_items ascii_only (jservice_only [no_value; cheap])
           (Pool.mk [paris]) [no_value; cheap] paris).
  - reflexivity.
  - intros l. reflexivity.
Defined.

(** * Further properties *)

(** ** What a normalised string looks like *)

Section NormalForm.

Context (rt : Runtime).

Lemma span_le p s : span p s ≤ length s.
Proof. induction s as [|c s IH]; simpl; [lia|]. destruct (p c); lia. Qed.

Lemma starts_with_length w : ∀ s, starts_with w s = true → length w ≤ length s.
Proof.
  induction w as [|x w IH]; intros [|c s]; simpl; try lia; try done.
  intros [_ H]%andb_prop. apply IH in H. lia.
Qed.

Lemma starts_with_app w s : starts_with w (w ++ s) = true.
Proof. induction w as [|x w IH]; simpl; [done|]. by rewrite N.eqb_refl. Qed.

Lemma word_then_boundary_Some w s n :
  word_then_boundary rt w s = Some n →
  n = length w ∧ starts_with w s = true
  ∧ at_boundary rt (last w) (head (drop (length w) s)) = true.
Proof.
  unfold word_then_boundary.
  destruct (starts_with w s); simpl; [|done].
  destruct (at_boundary _ _ _); [|done]. by intros [= <-].
Qed.

Lemma match_article_Some prev s n :
  match_article rt prev s = Some n → 0 < n ∧ n ≤ length s.
Proof.
  unfold match_article. destruct (at_boundary _ _ _); [|done].
  repeat match goal with
  | |- context [word_then_boundary rt ?w s] =>
    let E := fresh "E" in
    destruct (word_then_boundary rt w s) eqn:E;
      [intros [= <-]; apply word_then_boundary_Some in E as (-> & E & _);
       apply starts_with_length in E; split; [cbn; lia|done]|]
  end.
  done.
Qed.

Lemma last_pos_Some p s n : last_pos p s = Some n → 0 < n ∧ n ≤ length s.
Proof.
  revert n. induction s as [|c s IH]; intros n; simpl; [done|].
  destruct (last_pos p s) as [m|].
  - intros [= <-]. destruct (IH m eq_refl). lia.
  - destruct (p c); [|done]. intros [= <-]. lia.
Qed.

Lemma last_pos_None p s : last_pos p s = None → Forall (λ c, p c = false) s.
Proof.
  induction s as [|c s IH]; simpl; [constructor|].
  destruct (last_pos p s); [done|]. destruct (p c) eqn:E; [done|].
  intros _. constructor; [done|by apply IH].
Qed.

Lemma match_tag_Some rest n :
  match_tag rest = Some n → 2 ≤ n ∧ n ≤ S (length rest).
Proof.
  unfold match_tag.
  destruct (last_pos _ _) as [m|] eqn:E; [|done]. intros [= <-].
  apply last_pos_Some in E as [H1 H2]. rewrite length_take in H2. lia.
Qed.

(** A match is never empty and never runs over the end. *)
Lemma match_here_Some prev s n :
  match_here rt prev s = Some n → 0 < n ∧ n ≤ length s.
Proof.
  destruct s as [|c rest]; [done|]. unfold match_here.
  destruct (isspace rt c) eqn:Es.
  { intros [= <-]. pose proof (span_le (isspace rt) rest).
    simpl. rewrite Es. simpl. lia. }
  destruct (is_crlf c) eqn:Ec.
  { intros [= <-]. pose proof (span_le is_crlf rest).
    simpl. rewrite Ec. simpl. lia. }
  destruct (match_article rt prev (c :: rest)) as [m|] eqn:Ea.
  { intros [= <-]. by apply match_article_Some in Ea. }
  destruct (is_punct c); [intros [= <-]; simpl; lia|].
  destruct (c =? 60)%N; [|done].
  intros H. apply match_tag_Some in H. simpl. lia.
Qed.

Lemma before_nil prev : before prev [] = prev.
Proof. reflexivity. Qed.

Lemma before_cons prev c pre : before prev (c :: pre) = before (Some c) pre.
Proof.
  unfold before. destruct pre as [|d pre]; [done|].
  rewrite last_cons. by destruct (last (d :: pre)).
Qed.

(** In a string that the substitution leaves unchanged, the pattern
    matches nowhere but at single spaces. *)
Lemma sub_fixed_quiet s : ∀ prev,
  sub_from rt prev 0 s = s →
  ∀ pre suf, s = pre ++ suf → quiet rt (before prev pre) suf.
Proof.
  induction s as [|c s IH]; intros prev Hfix pre suf Hs.
  - symmetry in Hs. apply app_eq_nil in Hs as [-> ->]. by unfold quiet.
  - rewrite sub_from_cons in Hfix.
    assert (Hhead : quiet rt prev (c :: s) ∧ sub_from rt (Some c) 0 s = s).
    { unfold quiet.
      destruct (match_here rt prev (c :: s)) as [[|k]|] eqn:Em.
      - injection Hfix as Hfix. done.
      - injection Hfix as Hc Hfix. subst c.
        apply match_here_Some in Em as [_ Hk]. simpl in Hk.
        pose proof (sub_from_weight rt s (Some 32%N) k) as H1.
        pose proof (weight_drop k s) as H2.
        rewrite Hfix in H1.
        destruct (weight_drop_eq k s) as [->| ->]; [lia|done|].
        simpl in Hk. assert (k = 0) as -> by lia. done.
      - injection Hfix as Hfix. done. }
    destruct Hhead as [Hq Hrest].
    destruct pre as [|d pre].
    + simpl in Hs. subst suf. by rewrite before_nil.
    + simpl in Hs. injection Hs as <- Hs. rewrite before_cons.
      by apply (IH (Some c)).
Qed.

(** A fixed point of the pass is a fixed point of both of its halves. *)
Lemma cleanup_pass_fixed_parts s :
  cleanup_pass rt s = s → r_cleanup_sub rt s = s ∧ strip rt s = s.
Proof.
  intros Hfix. unfold cleanup_pass, r_cleanup_sub in *.
  pose proof (strip_weight rt (sub_from rt None 0 s)) as H1.
  pose proof (sub_from_weight rt s None 0) as H2. rewrite drop_0 in H2.
  rewrite Hfix in H1.
  assert (Hs : sub_from rt None 0 s = s) by (apply sub_from_weight_eq; lia).
  by rewrite Hs in Hfix.
Qed.

Lemma cleanup_quiet s pre suf :
  cleanup rt s = pre ++ suf → quiet rt (last pre) suf.
Proof.
  intros Hs.
  destruct (cleanup_pass_fixed_parts _ (cleanup_fixed rt s)) as [Hsub _].
  pose proof (sub_fixed_quiet (cleanup rt s) None Hsub pre suf Hs) as Hq.
  unfold before in Hq. by destruct (last pre).
Qed.

Lemma lstrip_fixed_head s c :
  lstrip rt s = s → head s = Some c → isspace rt c = false.
Proof.
  destruct s as [|d s]; [done|]. simpl. intros Hfix [= ->].
  destruct (isspace rt c) eqn:E; [|done].
  pose proof (lstrip_weight rt s) as Hw. rewrite Hfix, weight_cons in Hw.
  destruct (c =? 32)%N; lia.
Qed.

Lemma strip_fixed_parts s :
  strip rt s = s → lstrip rt s = s ∧ lstrip rt (rev s) = rev s.
Proof.
  intros Hfix. unfold strip in Hfix.
  pose proof (rstrip_weight rt (lstrip rt s)) as H1.
  pose proof (lstrip_weight rt s) as H2. rewrite Hfix in H1.
  assert (Hl : lstrip rt s = s) by (apply lstrip_weight_eq; lia).
  split; [done|]. rewrite Hl in Hfix. unfold rstrip in Hfix.
  rewrite <- Hfix at 2. by rewrite rev_involutive.
Qed.

End NormalForm.

(** X1: [Question.cleanup] ends through its [break]: what it returns is
    left unchanged by one more substitute-and-strip pass, and running the
    loop with any bound on its rounds above the weight of the case-folded
    input gives the same string. *)
Theorem cleanup_reaches_fixed_point (rt : Runtime) (s : list N) (fuel : nat)
    (Hfuel : weight (casefold rt s) < fuel) :
  cleanup_pass rt (cleanup rt s) = cleanup rt s ∧
  cleanup_loop rt fuel (casefold rt s) = cleanup rt s.
Proof.
  split; [apply cleanup_fixed|]. unfold cleanup.
  apply cleanup_loop_fuel; lia.
Qed.

Lemma cleanup_reaches_fixed_point_witness :
  cleanup_pass ascii_only (cleanup ascii_only (lit "An  <i>Ode</i>, of sorts!"))
    = cleanup ascii_only (lit "An  <i>Ode</i>, of sorts!") ∧
  cleanup_loop ascii_only 1000 (casefold ascii_only (lit "An  <i>Ode</i>, of sorts!"))
    = cleanup ascii_only (lit "An  <i>Ode</i>, of sorts!").
Proof.
  apply (cleanup_reaches_fixed_point ascii_only _ 1000). vm_compute. lia.
Defined.

(** X2: a normalised string neither starts nor ends with white space; the
    only white space in it is the single space U+0020, and no space is
    followed by another white space. *)
Theorem cleanup_is_stripped_and_single_spaced (rt : Runtime) (s : list N) :
  (∀ c, head (cleanup rt s) = Some c → isspace rt c = false) ∧
  (∀ c, last (cleanup rt s) = Some c → isspace rt c = false) ∧
  (∀ pre c suf, cleanup rt s = pre ++ c :: suf → isspace rt c = true →
     c = 32%N ∧ ∀ d, head suf = Some d → isspace rt d = false).
Proof.
  destruct (cleanup_pass_fixed_parts rt _ (cleanup_fixed rt s)) as [_ Hstrip].
  destruct (strip_fixed_parts rt _ Hstrip) as [Hl Hr].
  split_and!.
  - intros c. by apply lstrip_fixed_head.
  - intros c Hc. apply (lstrip_fixed_head rt _ c Hr).
    rewrite <- Hc. clear. generalize (cleanup rt s). intros l.
    induction l as [|x l IH] using rev_ind; [done|].
    rewrite rev_app_distr, last_snoc. done.
  - intros pre c suf Hs Hc.
    pose proof (cleanup_quiet rt s pre (c :: suf) Hs) as Hq.
    unfold quiet, match_here in Hq. rewrite Hc in Hq.
    simpl span in Hq. rewrite Hc in Hq. destruct Hq as [Hk [= ->]].
    split; [done|]. intros d Hd.
    destruct suf as [|d' suf]; [done|]. injection Hd as ->.
    simpl in Hk. by destruct (isspace rt d).
Qed.

Lemma cleanup_is_stripped_and_single_spaced_witness :
  (32 = 32)%N ∧ ∀ d, head (lit "rings") = Some d → isspace ascii_only d = false.
Proof.
  apply (proj2 (proj2 (cleanup_is_stripped_and_single_spaced ascii_only
                         (lit " The Lord   of the Rings ")))
           (lit "lord") 32%N (lit "rings")).
  - vm_compute. reflexivity.
  - reflexivity.
Defined.

Lemma punct_match_here (rt : Runtime) prev c suf :
  is_punct c = true → ∃ k, match_here rt prev (c :: suf) = Some (S k).
Proof.
  intros Hp.
  destruct (match_here rt prev (c :: suf)) as [n|] eqn:E.
  - apply match_here_Some in E as E'. destruct n as [|k]; [lia|]. by exists k.
  - exfalso. unfold match_here in E.
    destruct (isspace rt c); [done|]. destruct (is_crlf c); [done|].
    destruct (match_article rt prev (c :: suf)); [done|]. by rewrite Hp in E.
Qed.

(** X3: a normalised string holds none of the punctuation marks
    [. ! _ , ? ( ) -]. *)
Theorem cleanup_has_no_punctuation (rt : Runtime) (s : list N) :
  Forall (λ c, is_punct c = false) (cleanup rt s).
Proof.
  apply Forall_forall. intros c Hc.
  apply list_elem_of_split in Hc as (pre & suf & Hs).
  destruct (is_punct c) eqn:Hp; [|done]. exfalso.
  pose proof (cleanup_quiet rt s pre (c :: suf) Hs) as Hq.
  destruct (punct_match_here rt (last pre) c suf Hp) as [k Hk].
  unfold quiet in Hq. rewrite Hk in Hq. destruct Hq as [_ [= ->]]. done.
Qed.

Lemma article_matches (rt : Runtime) prev w suf :
  w ∈ articles → isword_opt rt prev = false → isword_opt rt (head suf) = false →
  ∃ n, match_article rt prev (w ++ suf) = Some n.
Proof.
  intros Hw Hprev Hsuf.
  assert (Hself : word_then_boundary rt w (w ++ suf) = Some (length w)).
  { unfold word_then_boundary. rewrite starts_with_app, drop_app_length.
    unfold at_boundary. rewrite Hsuf.
    unfold articles in Hw. set_unfold in Hw.
    destruct Hw as [->|[->|[->|[->|[]]]]]; reflexivity. }
  assert (Hb : at_boundary rt prev (head (w ++ suf)) = true).
  { unfold at_boundary. rewrite Hprev.
    unfold articles in Hw. set_unfold in Hw.
    destruct Hw as [->|[->|[->|[->|[]]]]]; reflexivity. }
  unfold match_article. rewrite Hb.
  unfold articles in Hw. set_unfold in Hw.
  destruct Hw as [->|[->|[->|[->|[]]]]];
    repeat match goal with
    | |- context [word_then_boundary rt ?v ?t] =>
      first [rewrite Hself | destruct (word_then_boundary rt v t)]
    end; eauto.
Qed.

(** X4: in a normalised string the words "the", "an", "a" and "of" never
    stand by themselves: wherever one of them occurs, a word character
    comes right before it or right after it. *)
Theorem cleanup_has_no_standalone_article (rt : Runtime) (s pre w suf : list N)
    (Hw : w ∈ articles)
    (Hs : cleanup rt s = pre ++ w ++ suf) :
  isword_opt rt (last pre) = true ∨ isword_opt rt (head suf) = true.
Proof.
  destruct (isword_opt rt (last pre)) eqn:Hpre; [by left|].
  destruct (isword_opt rt (head suf)) eqn:Hsuf; [by right|]. exfalso.
  pose proof (cleanup_quiet rt s pre (w ++ suf) Hs) as Hq.
  destruct (article_matches rt (last pre) w suf Hw Hpre Hsuf) as [n Hn].
  pose proof (match_article_Some rt _ _ _ Hn) as [Hpos _].
  unfold quiet, match_here in Hq. rewrite Hn in Hq.
  unfold articles in Hw. set_unfold in Hw.
  destruct Hw as [->|[->|[->|[->|[]]]]]; cbn in Hq;
    destruct n as [|k]; try lia; by destruct Hq as [_ [=]].
Qed.

Lemma cleanup_has_no_standalone_article_witness :
  isword_opt ascii_only (last (lit "gone with ")) = true
  ∨ isword_opt ascii_only (head (lit "atre")) = true.
Proof.
  apply (cleanup_has_no_standalone_article ascii_only
           (lit "Gone with the Theatre") (lit "gone with ") (lit "the") (lit "atre")).
  - unfold articles. set_solver.
  - vm_compute. reflexivity.
Defined.

Lemma span_reaches p l x l' :
  Forall (λ c, p c = true) l → p x = true →
  x ∈ take (span p (l ++ x :: l')) (l ++ x :: l').
Proof.
  induction 1 as [|c l Hc _ IH]; intros Hx; simpl.
  - rewrite Hx. simpl. by left.
  - rewrite Hc. simpl. right. by apply IH.
Qed.

Lemma tag_matches (rt : Runtime) prev mid suf :
  (60%N : N) ∉ mid →
  ∃ k, match_here rt prev (60%N :: mid ++ 62%N :: suf) = Some (S (S k)).
Proof.
  intros Hmid.
  assert (Htag : ∃ n, match_tag (mid ++ 62%N :: suf) = Some n).
  { unfold match_tag.
    destruct (last_pos _ _) as [n|] eqn:E; [by eexists|]. exfalso.
    apply last_pos_None in E. rewrite Forall_forall in E.
    specialize (E 62%N). rewrite N.eqb_refl in E. enough (true = false) by done.
    apply E, span_reaches; [|done].
    apply Forall_forall. intros c Hc. destruct (N.eqb_spec c 60) as [->|]; done. }
  destruct Htag as [n Hn]. pose proof (match_tag_Some _ _ Hn) as [Hn2 _].
  destruct n as [|[|k]]; try lia. exists k.
  unfold match_here.
  assert (Hart : match_article rt prev (60%N :: mid ++ 62%N :: suf) = None).
  { unfold match_article, word_then_boundary. cbn [starts_with lit map
      list_ascii_of_string N_of_ascii N.eqb]. cbn.
    by destruct (at_boundary rt prev (Some 60%N)). }
  rewrite Hart. cbn. done.
Qed.

(** X5: in a normalised string no [>] comes anywhere after a [<]: nothing
    that the pattern would take for a tag is left. *)
Theorem cleanup_has_no_tag (rt : Runtime) (s pre rest : list N)
    (Hs : cleanup rt s = pre ++ 60%N :: rest) :
  (62%N : N) ∉ rest.
Proof.
  intros Hgt.
  apply list_elem_of_split_l in Hgt as (mid & suf & -> & Hmid).
  destruct (decide ((60%N : N) ∈ mid)) as [Hlt|Hlt].
  - apply list_elem_of_split_r in Hlt as (m1 & m2 & -> & Hm2).
    assert (Hs' : cleanup rt s = (pre ++ 60%N :: m1) ++ 60%N :: m2 ++ 62%N :: suf).
    { rewrite Hs. by rewrite <- !app_assoc. }
    pose proof (cleanup_quiet rt s _ _ Hs') as Hq.
    destruct (tag_matches rt (last (pre ++ 60%N :: m1)) m2 suf Hm2) as [k Hk].
    unfold quiet in Hq. rewrite Hk in Hq. by destruct Hq.
  - pose proof (cleanup_quiet rt s _ _ Hs) as Hq.
    destruct (tag_matches rt (last pre) mid suf Hlt) as [k Hk].
    unfold quiet in Hq. rewrite Hk in Hq. by destruct Hq.
Qed.

Lemma cleanup_has_no_tag_witness : (62%N : N) ∉ lit "b".
Proof.
  apply (cleanup_has_no_tag ascii_only (lit "x <b") (lit "x ") (lit "b")).
  vm_compute. reflexivity.
Defined.

(** ** What the answer check accepts and rejects *)

Section Disjoint.

Import SequenceMatcher.

Context (a b : list N) (Hdisjoint : ∀ c, c ∈ a → c ∉ b).

Lemma positions_absent c off : c ∉ b → positions c off b = [].
Proof.
  intros Hc. apply elem_of_nil_inv. intros j Hj.
  apply positions_elem in Hj as [_ Hj]. apply Hc.
  by apply list_elem_of_lookup_2 in Hj.
Qed.

Lemma scan_rows_disjoint blo bhi rows : ∀ j2len best,
  scan_rows a b blo bhi rows j2len best = best.
Proof.
  induction rows as [|i rows IH]; intros j2len best; [done|].
  cbn [scan_rows].
  assert (Hrow : from_option (b2j b) [] (a !! i) = []).
  { destruct (a !! i) as [c|] eqn:E; [|done]. cbn. unfold b2j.
    destruct (bpopular b c); [done|]. apply positions_absent.
    apply Hdisjoint. by apply list_elem_of_lookup_2 in E. }
  rewrite Hrow. cbn [scan_row]. apply IH.
Qed.

Lemma same_at_disjoint i j : same_at a i b j = false.
Proof.
  unfold same_at. destruct (a !! i) as [x|] eqn:Ea; [|done].
  destruct (b !! j) as [y|] eqn:Eb; [|done].
  destruct (N.eqb_spec x y) as [->|]; [|done]. exfalso.
  apply (Hdisjoint y); by eapply list_elem_of_lookup_2.
Qed.

Lemma extend_left_disjoint junk alo blo besti bestj bestsize :
  extend_left junk a b alo blo besti bestj bestsize = (besti, bestj, bestsize).
Proof.
  destruct besti as [|i'], bestj as [|j']; try done. simpl.
  by rewrite same_at_disjoint, andb_false_r.
Qed.

Lemma extend_right_disjoint junk ahi bhi besti bestj room bestsize :
  extend_right junk a b ahi bhi besti bestj room bestsize = bestsize.
Proof.
  destruct room; [done|]. simpl. by rewrite same_at_disjoint, andb_false_r.
Qed.

Lemma find_longest_match_disjoint alo ahi blo bhi :
  find_longest_match a b alo ahi blo bhi = (alo, blo, 0).
Proof.
  unfold find_longest_match. rewrite scan_rows_disjoint.
  by rewrite !extend_left_disjoint, !extend_right_disjoint.
Qed.

Lemma blocks_loop_disjoint fuel : ∀ queue acc,
  blocks_loop fuel a b queue acc = acc.
Proof.
  induction fuel as [|fuel IH]; intros queue acc; [done|].
  destruct queue as [|[[[alo ahi] blo] bhi] queue]; [done|].
  cbn [blocks_loop]. rewrite find_longest_match_disjoint. cbn. apply IH.
Qed.

Lemma ratio_disjoint t :
  length a + length b = S t → ratio a b = (0 # Pos.of_nat (S t))%Q.
Proof.
  intros Ht. unfold ratio, get_matching_blocks.
  rewrite blocks_loop_disjoint, Ht. reflexivity.
Qed.

End Disjoint.

(** X6: a submission is accepted whenever its normalisation is not empty
    and equals the normalisation of the expected answer, whatever the
    letter case, punctuation, articles, tags and spacing of either. *)
Theorem same_normal_form_accepted (rt : Runtime) (q : Question.t) (a : list N)
    (Hsame : cleanup rt a = cleanup rt (Question.answer q))
    (Hne : cleanup rt a ≠ []) :
  Question.check rt q a = true.
Proof.
  unfold Question.check, Question.cleanup. rewrite <- Hsame.
  rewrite bool_decide_eq_false_2 by done.
  destruct (cleanup rt a) as [|c s] eqn:E; [done|].
  cbn [length Nat.ltb Nat.leb orb]. by apply ratio_self.
Qed.

Lemma same_normal_form_accepted_witness :
  Question.check ascii_only paris (lit "  The  <b>PARIS</b>!! ") = true.
Proof.
  apply same_normal_form_accepted.
  - vm_compute. reflexivity.
  - vm_compute. discriminate.
Defined.

(** X7: a submission whose normalisation has no code point in common with
    the normalised expected answer is rejected. *)
Theorem no_common_code_point_rejected (rt : Runtime) (q : Question.t) (a : list N)
    (Hnone : ∀ c, c ∈ cleanup rt a → c ∉ cleanup rt (Question.answer q)) :
  Question.check rt q a = false.
Proof.
  unfold Question.check, Question.cleanup.
  destruct (cleanup rt a) as [|c s] eqn:E; [done|].
  rewrite bool_decide_eq_false_2 by done. cbn [length Nat.ltb Nat.leb orb].
  destruct (length (cleanup rt (Question.answer q)) + length (c :: s)) as [|t] eqn:Et;
    [simpl in Et; lia|].
  rewrite (ratio_disjoint _ _ (λ x Hx Hx', Hnone x Hx' Hx) t Et).
  reflexivity.
Qed.

Lemma no_common_code_point_rejected_witness :
  Question.check ascii_only paris (lit "London") = false.
Proof.
  apply no_common_code_point_rejected.
  assert (H1 : cleanup ascii_only (lit "London") = lit "london")
    by (vm_compute; reflexivity).
  assert (H2 : cleanup ascii_only (Question.answer paris) = lit "paris")
    by (vm_compute; reflexivity).
  rewrite H1, H2. intros c Hc Hc'.
  apply list_elem_of_In in Hc. apply list_elem_of_In in Hc'.
  vm_compute in Hc, Hc'.
  repeat (destruct Hc as [<-|Hc]; [intuition discriminate|]). done.
Defined.

Lemma blank_folded (rt : Runtime) c :
  (c < 128)%N → isspace rt c = true ∨ is_punct c = true → casefold_char rt c = [c].
Proof.
  intros Hc H. unfold casefold_char, isspace in *.
  destruct (N.ltb_spec c 128) as [_|]; [|lia].
  destruct (between 65 90 c) eqn:Eu; [|done]. exfalso.
  unfold between in *. destruct H as [H|H].
  - destruct (N.leb_spec 65 c), (N.leb_spec c 90), (N.leb_spec 9 c),
      (N.leb_spec c 13), (N.leb_spec 28 c), (N.leb_spec c 32); simpl in *;
      try done; lia.
  - unfold is_punct in H. apply existsb_exists in H as (x & Hx & Hcx).
    apply N.eqb_eq in Hcx. subst x. cbn in Hx.
    repeat (destruct Hx as [<-|Hx]; [by vm_compute in Eu|]). done.
Qed.

(** X8: a submission made of nothing but ASCII white space and the
    punctuation marks [. ! _ , ? ( ) -] normalises to the empty string and
    is rejected, whatever the expected answer. *)
Theorem blank_submission_rejected (rt : Runtime) (q : Question.t) (a : list N)
    (Hblank : Forall (λ c, (c < 128)%N ∧ (isspace rt c = true ∨ is_punct c = true)) a) :
  cleanup rt a = [] ∧ Question.check rt q a = false.
Proof.
  assert (Hempty : cleanup rt a = []).
  { assert (Hfold : casefold rt a = a).
    { apply casefold_folded. eapply Forall_impl; [done|].
      intros c [Hc H]. by apply blank_folded. }
    assert (Hres : Forall (λ c, isspace rt c = true ∨ is_punct c = true) (cleanup rt a)).
    { unfold cleanup. rewrite Hfold. apply cleanup_loop_Forall; [by left|].
      eapply Forall_impl; [done|]. by intros c [_ H]. }
    destruct (cleanup rt a) as [|c s] eqn:E; [done|]. exfalso.
    rewrite <- E in *.
    destruct (cleanup_pass_fixed_parts rt _ (cleanup_fixed rt a)) as [_ Hstrip].
    destruct (strip_fixed_parts rt _ Hstrip) as [Hl _].
    assert (Hhead : head (cleanup rt a) = Some c) by by rewrite E.
    pose proof (lstrip_fixed_head rt _ c Hl Hhead) as Hns.
    rewrite E in Hres. inversion Hres as [|? ? [Hsp|Hp] _]; subst; [congruence|].
    pose proof (cleanup_quiet rt a [] (c :: s) E) as Hq.
    destruct (punct_match_here rt None c s Hp) as [k Hk].
    unfold quiet in Hq. simpl last in Hq. rewrite Hk in Hq.
    destruct Hq as [_ [= ->]]. done. }
  split; [done|]. unfold Question.check, Question.cleanup. by rewrite Hempty.
Qed.

Lemma blank_submission_rejected_witness :
  cleanup ascii_only (lit " ...  (?!) -- ") = []
  ∧ Question.check ascii_only paris (lit " ...  (?!) -- ") = false.
Proof.
  apply blank_submission_rejected.
  apply Forall_forall. intros c Hc. apply list_elem_of_In in Hc.
  vm_compute in Hc.
  repeat (destruct Hc as [<-|Hc]; [split; [reflexivity|vm_compute; auto]|]).
  done.
Defined.

(** X9: a submission is rejected when its normalisation is too short or
    too long for the expected one: with [la] and [lb] the lengths of the
    two normalised strings, no submission with
    [200 * min la lb < 87 * (la + lb)] is accepted. *)
Theorem length_mismatch_rejected (rt : Runtime) (q : Question.t) (a : list N)
    (Hlen : 200 * (length (cleanup rt (Question.answer q)) `min` length (cleanup rt a))
            < 87 * (length (cleanup rt (Question.answer q)) + length (cleanup rt a))) :
  Question.check rt q a = false.
Proof.
  unfold Question.check, Question.cleanup.
  destruct (bool_decide _ || _); [done|].
  destruct (matches_bounded (cleanup rt (Question.answer q)) (cleanup rt a)) as [Ha Hb].
  unfold SequenceMatcher.ratio.
  set (m := SequenceMatcher.total_size _) in *.
  unfold SequenceMatcher.calculate_ratio.
  destruct (length (cleanup rt (Question.answer q)) + length (cleanup rt a))
    as [|t] eqn:Et; [lia|].
  destruct (Qle_bool _ _) eqn:E; [|done]. exfalso.
  apply Qle_bool_iff in E. unfold Qle, Question.ratio in E. cbn [Qnum Qden] in E.
  lia.
Qed.

Lemma length_mismatch_rejected_witness :
  Question.check ascii_only paris (lit "pa") = false.
Proof. apply length_mismatch_rejected. vm_compute. lia. Defined.

(** ** The pool *)

Lemma pop_None {A} (l : list A) : Pool.pop l = None ↔ l = [].
Proof.
  destruct l as [|x l] using rev_ind; [done|].
  rewrite pop_snoc. split; [done|]. by destruct l.
Qed.

Lemma pop_Some {A} (l rest : list A) (x : A) :
  Pool.pop l = Some (x, rest) → l = rest ++ [x].
Proof.
  destruct l as [|y l _] using rev_ind; [done|].
  rewrite pop_snoc. by intros [= -> ->].
Qed.

Lemma omap_length_le {A B} (f : A → option B) (l : list A) :
  length (omap f l) ≤ length l.
Proof.
  induction l as [|x l IH]; [done|]. cbn [omap list_omap].
  destruct (f x); simpl; lia.
Qed.

Lemma of_opentdb_rendered rt net i q : Pool.of_opentdb rt net i = Some q → rendered q.
Proof.
  unfold Pool.of_opentdb.
  set (text := if bool_decide _ then _ else _).
  destruct (Nat.ltb_spec 300 (length (lit "Trivia: " ++ text))); [done|].
  intros [= <-]. split_and!; [done|by exists text|done].
Qed.

Lemma of_jservice_rendered i q : Pool.of_jservice i = Some q → rendered q.
Proof.
  intros (_ & Hlen & ->)%of_jservice_Some.
  split_and!; [done|by eexists|done].
Qed.

(** X10: a refill loses nothing and adds at most one question per item
    that a loop went through: whatever permutation the shuffle applies,
    every question of the pool is still in it after [seed], and the pool
    grows by at most the number of items the two loops completed.  A source
    that raises keeps what its loop appended before: the pool holds what it
    held before exactly when no completed item of either source gave a
    question, whether the sources then raised or not. *)
Theorem seed_keeps_and_bounds (rt : Runtime) (net : Pool.Net) (self : Pool.t)
    (Hshuffle : ∀ l, Pool.shuffle_questions net l ≡ₚ l) :
  (∀ q, q ∈ Pool.questions self → q ∈ Pool.questions (Pool.seed rt net self)) ∧
  length (Pool.questions (Pool.seed rt net self))
    ≤ length (Pool.questions self) + length (default [] (Pool.opentdb net))
      + length (default [] (Pool.jservice net)) ∧
  (Pool.questions (Pool.seed rt net self) ≡ₚ Pool.questions self ↔
   omap (Pool.of_opentdb rt net) (default [] (Pool.opentdb net)) = [] ∧
   omap Pool.of_jservice (default [] (Pool.jservice net)) = []).
Proof.
  assert (Hall : Pool.questions (Pool.seed rt net self)
    ≡ₚ Pool.questions self
       ++ omap (Pool.of_opentdb rt net) (default [] (Pool.opentdb net))
       ++ omap Pool.of_jservice (default [] (Pool.jservice net))).
  { unfold Pool.seed. cbn [Pool.questions]. rewrite (Hshuffle _).
    destruct (Pool.opentdb net), (Pool.jservice net);
      cbn [default from_option id omap list_omap];
      by rewrite ?app_nil_r, <- ?app_assoc. }
  split_and!.
  - intros q Hq. rewrite Hall. set_solver.
  - rewrite Hall, !length_app.
    pose proof (omap_length_le (Pool.of_opentdb rt net) (default [] (Pool.opentdb net))).
    pose proof (omap_length_le Pool.of_jservice (default [] (Pool.jservice net))).
    lia.
  - split.
    + intros Hsame. rewrite Hsame in Hall. apply Permutation_length in Hall.
      rewrite !length_app in Hall.
      split; apply nil_length_inv; lia.
    + intros [Ha Hb]. by rewrite Hall, Ha, Hb, !app_nil_r.
Qed.

Lemma seed_keeps_and_bounds_witness :
  (∀ q, q ∈ Pool.questions (Pool.mk [paris]) →
        q ∈ Pool.questions (Pool.seed ascii_only both_break (Pool.mk [paris]))) ∧
  length (Pool.questions (Pool.seed ascii_only both_break (Pool.mk [paris])))
    ≤ length (Pool.questions (Pool.mk [paris]))
      + length (default [] (Pool.opentdb both_break))
      + length (default [] (Pool.jservice both_break)) ∧
  (Pool.questions (Pool.seed ascii_only both_break (Pool.mk [paris]))
     ≡ₚ Pool.questions (Pool.mk [paris]) ↔
   omap (Pool.of_opentdb ascii_only both_break) (default [] (Pool.opentdb both_break)) = [] ∧
   omap Pool.of_jservice (default [] (Pool.jservice both_break)) = []).
Proof.
  apply (seed_keeps_and_bounds ascii_only both_break (Pool.mk [paris])).
  intros l. reflexivity.
Defined.

(** Both sources give one item and raise after it: both failures are
    logged and the pool has grown by two. *)
Lemma seed_after_broken_loops :
  Pool.seed_log both_break
  = ["failed to get opentdb questions"%string;
     "failed to get jservice questions"%string] ∧
  length (Pool.questions (Pool.seed ascii_only both_break (Pool.mk [paris]))) = 3 ∧
  Pool.questions (Pool.seed ascii_only both_break (Pool.mk [paris]))
  = paris :: omap (Pool.of_opentdb ascii_only both_break) [capital_item]
      ++ [Question.mk 0 (lit "Trivia: Capital of France?") (lit "Paris")].
Proof. vm_compute. repeat split; reflexivity. Qed.

(** X11: whatever the two sources return, every question that [seed] adds
    to the pool has the identifier 0 and a text that starts with
    "Trivia: " and is at most 300 code points long; a pool of such
    questions stays one. *)
Theorem seed_adds_rendered_questions (rt : Runtime) (net : Pool.Net) (self : Pool.t)
    (Hshuffle : ∀ l, Pool.shuffle_questions net l ≡ₚ l) :
  (∀ q, q ∈ Pool.questions (Pool.seed rt net self) →
        q ∈ Pool.questions self ∨ rendered q) ∧
  (Forall rendered (Pool.questions self) →
   Forall rendered (Pool.questions (Pool.seed rt net self))).
Proof.
  assert (H : ∀ q, q ∈ Pool.questions (Pool.seed rt net self) →
                   q ∈ Pool.questions self ∨ rendered q).
  { intros q. unfold Pool.seed. cbn [Pool.questions]. rewrite (Hshuffle _).
    assert (Ha : ∀ ra : list Pool.ItemA,
                 q ∈ omap (Pool.of_opentdb rt net) ra → rendered q).
    { intros ra (i & _ & Hi)%list_elem_of_omap. by apply of_opentdb_rendered in Hi. }
    assert (Hb : ∀ rb : list Pool.ItemB, q ∈ omap Pool.of_jservice rb → rendered q).
    { intros rb (i & _ & Hi)%list_elem_of_omap. by apply of_jservice_rendered in Hi. }
    destruct (Pool.opentdb net) as [ra|], (Pool.jservice net) as [rb|];
      rewrite ?elem_of_app; intuition eauto. }
  split; [done|]. rewrite !Forall_forall. intros Hold q Hq.
  destruct (H q Hq); auto.
Qed.

Lemma seed_adds_rendered_questions_witness :
  (∀ q, q ∈ Pool.questions (Pool.seed ascii_only (opentdb_only [capital_item]) Pool.new) →
        q ∈ Pool.questions Pool.new ∨ rendered q) ∧
  (Forall rendered (Pool.questions Pool.new) →
   Forall rendered (Pool.questions (Pool.seed ascii_only (opentdb_only [capital_item])
                                      Pool.new))).
Proof.
  apply (seed_adds_rendered_questions ascii_only (opentdb_only [capital_item]) Pool.new).
  intros l. apply Permutation_sym, Permutation_rev.
Defined.

(** X12: from a pool that is not empty [get_question] hands out the last
    question and removes just that one, without asking the sources: the
    result is the same whatever they would answer. *)
Theorem get_question_pops_last (rt : Runtime) (net : Pool.Net) (self : Pool.t)
    (front : list Question.t) (q : Question.t)
    (Hpool : Pool.questions self = front ++ [q]) :
  Pool.get_question rt net self = (Some q, Pool.mk front).
Proof.
  unfold Pool.get_question. rewrite Hpool.
  rewrite bool_decide_eq_false_2 by (by destruct front).
  by rewrite Hpool, pop_snoc.
Qed.

Lemma get_question_pops_last_witness :
  Pool.get_question ascii_only silent (Pool.mk [paris; paris])
  = (Some paris, Pool.mk [paris]).
Proof. by apply (get_question_pops_last _ _ _ [paris] paris). Defined.

(** X13: [get_question] answers [None] exactly when the pool is empty and
    the refill it then attempts leaves it empty; otherwise the question
    handed out, put back at the end of the pool that is left, gives the
    pool as it was (after the refill, if there was one). *)
Theorem get_question_None_iff (rt : Runtime) (net : Pool.Net) (self : Pool.t) :
  ((Pool.get_question rt net self).1 = None ↔
   Pool.questions self = [] ∧ Pool.questions (Pool.seed rt net self) = []) ∧
  (∀ q self', Pool.get_question rt net self = (Some q, self') →
     Pool.questions self' ++ [q] =
       if bool_decide (Pool.questions self = []) then Pool.questions (Pool.seed rt net self)
       else Pool.questions self).
Proof.
  unfold Pool.get_question.
  destruct (decide (Pool.questions self = [])) as [He|He].
  - rewrite !bool_decide_eq_true_2 by done.
    destruct (Pool.pop (Pool.questions (Pool.seed rt net self))) as [[q rest]|] eqn:E.
    + apply pop_Some in E. split.
      * split; [done|]. intros [_ H]. rewrite H in E. by destruct rest.
      * intros q' self' [= <- <-]. done.
    + apply pop_None in E. split; [done|]. intros q' self' [=].
  - rewrite !bool_decide_eq_false_2 by done.
    destruct (Pool.pop (Pool.questions self)) as [[q rest]|] eqn:E.
    + apply pop_Some in E. split.
      * split; [done|]. by intros [? _].
      * intros q' self' [= <- <-]. done.
    + by apply pop_None in E.
Qed.

Lemma get_question_None_iff_witness :
  (Pool.get_question ascii_only silent Pool.new).1 = None ∧
  Pool.questions (Pool.mk [])
    ++ [Question.mk 0 (lit "Trivia: Capital of France?") (lit "Paris")] =
    if bool_decide (Pool.questions Pool.new = [])
    then Pool.questions (Pool.seed ascii_only (jservice_only [cheap]) Pool.new)
    else Pool.questions Pool.new.
Proof.
  split.
  - apply (proj1 (get_question_None_iff ascii_only silent Pool.new)).
    split; reflexivity.
  - apply (proj2 (get_question_None_iff ascii_only (jservice_only [cheap]) Pool.new)
             (Question.mk 0 (lit "Trivia: Capital of France?") (lit "Paris"))
             (Pool.mk [])).
    vm_compute. reflexivity.
Defined.

Lemma join_cons2 sep (y z : list N) l :
  Pool.join sep (y :: z :: l) = y ++ sep ++ Pool.join sep (z :: l).
Proof. reflexivity. Qed.

(** Options joined by [c ++ sp ++ o] between [o] and [c] show each option
    between [o] and [c]. *)
Lemma join_shows (o c sp : list N) (l : list (list N)) (x : list N) : ∀ hd,
  x ∈ l →
  ∃ pre post, hd ++ o ++ Pool.join (c ++ sp ++ o) l ++ c = pre ++ o ++ x ++ c ++ post.
Proof.
  induction l as [|y l IH]; intros hd; [by intros ?%elem_of_nil|].
  destruct l as [|z l].
  - intros ->%list_elem_of_singleton. exists hd, []. by rewrite app_nil_r.
  - rewrite join_cons2. intros [->|Hx]%elem_of_cons.
    + exists hd, (sp ++ o ++ Pool.join (c ++ sp ++ o) (z :: l) ++ c).
      by rewrite <- !app_assoc.
    + destruct (IH (hd ++ o ++ y ++ c ++ sp) Hx) as (pre & post & H).
      exists pre, post. rewrite <- H. by rewrite <- !app_assoc.
Qed.

(** X14: a question made from an item of the first source that is not of
    the boolean type shows its correct answer among the bracketed options:
    the expected answer is the unescaped correct answer, and the text
    holds it between [[] and []]. *)
Theorem multiple_choice_shows_answer (rt : Runtime) (net : Pool.Net)
    (i : Pool.ItemA) (q : Question.t)
    (Hshuffle : ∀ l, Pool.shuffle_answers net l ≡ₚ l)
    (Htype : Pool.type i ≠ lit "boolean")
    (Hq : Pool.of_opentdb rt net i = Some q) :
  Question.answer q = Pool.unesc rt (Pool.correct_answer i) ∧
  ∃ pre post,
    Question.question q = pre ++ lit "[" ++ Question.answer q ++ lit "]" ++ post.
Proof.
  unfold Pool.of_opentdb in Hq. rewrite bool_decide_eq_false_2 in Hq by done.
  destruct (_ <? _); [done|]. injection Hq as <-. cbn [Question.answer Question.question].
  split; [done|].
  set (answer := Pool.unesc rt (Pool.correct_answer i)).
  set (answers := Pool.shuffle_answers net _).
  assert (Hin : answer ∈ answers).
  { unfold answers. rewrite (Hshuffle _). set_solver. }
  pose proof (join_shows (lit "[") (lit "]") (lit " ") answers answer
                (lit "Trivia: " ++ Pool.unesc rt (Pool.a_question i) ++ [10%N]) Hin)
    as (pre & post & H).
  exists pre, post. rewrite <- H. clear H.
  change (lit "]" ++ lit " " ++ lit "[") with (lit "] [").
  generalize (Pool.join (lit "] [") answers). intros joined.
  by rewrite <- !app_assoc.
Qed.

Lemma multiple_choice_shows_answer_witness :
  Question.answer (Question.mk 0
      (lit "Trivia: What is the capital of France?" ++ [10%N]
       ++ lit "[Paris] [Lille] [Nice] [Lyon]") (lit "Paris"))
    = Pool.unesc ascii_only (Pool.correct_answer capital_item) ∧
  ∃ pre post,
    Question.question (Question.mk 0
      (lit "Trivia: What is the capital of France?" ++ [10%N]
       ++ lit "[Paris] [Lille] [Nice] [Lyon]") (lit "Paris"))
    = pre ++ lit "[" ++ Question.answer (Question.mk 0
      (lit "Trivia: What is the capital of France?" ++ [10%N]
       ++ lit "[Paris] [Lille] [Nice] [Lyon]") (lit "Paris")) ++ lit "]" ++ post.
Proof.
  apply (multiple_choice_shows_answer ascii_only (opentdb_only [capital_item])
           capital_item).
  - intros l. apply Permutation_sym, Permutation_rev.
  - vm_compute. discriminate.
  - vm_compute. reflexivity.
Defined.

(** ** The game *)

(** X15: a check touches the answerer's score only: it never changes the
    threshold, the current question or the score of any other player, and
    the answerer's score goes up by one exactly when the result is
    [CORRECT] or [WON]; otherwise it stays. *)
Theorem check_touches_only_the_answerer (rt : Runtime) (g : Game.t) (p a : list N) :
  Game.towin (Game.check rt g p a).2 = Game.towin g ∧
  Game._question (Game.check rt g p a).2 = Game._question g ∧
  (∀ p', p' ≠ p → Game.count (Game.check rt g p a).2 p' = Game.count g p') ∧
  Game.count (Game.check rt g p a).2 p =
    match (Game.check rt g p a).1 with
    | Return CORRECT | Return WON => (Game.count g p + 1)%Z
    | _ => Game.count g p
    end.
Proof.
  unfold Game.check. destruct (Game._question g) as [q|] eqn:Eq; [|done].
  destruct (Question.check rt q a); [|cbn [fst snd]; split_and!; done].
  set (g' := Game.mk _ _ _).
  assert (Hp : Game.count g' p = (Game.count g p + 1)%Z).
  { unfold Game.count at 1. cbn [Game.counts g']. by rewrite lookup_insert_eq. }
  assert (Hother : ∀ p', p' ≠ p → Game.count g' p' = Game.count g p').
  { intros p' Hne. unfold Game.count. cbn [Game.counts g'].
    by rewrite lookup_insert_ne. }
  destruct (Game.towin g' <=? Game.count g' p)%Z; cbn [fst snd]; split_and!; done.
Qed.

(** X16: reading the question of a game twice gives the same question:
    once the property [question] has returned one, reading it again
    returns it again, whatever the sources would answer, and leaves the
    game and the pool as they are.  Reading never changes the threshold or
    a score. *)
Theorem question_is_stable (rt : Runtime) (net net' : Pool.Net) (g : Game.t)
    (pool : option Pool.t) :
  let '(q, g1, pool1) := Game.question rt net g pool in
  Game.towin g1 = Game.towin g ∧ Game.counts g1 = Game.counts g ∧
  Game._question g1 = q ∧
  (q ≠ None → Game.question rt net' g1 pool1 = (q, g1, pool1)) ∧
  (Game._question g ≠ None → q = Game._question g ∧ g1 = g ∧ pool1 = pool).
Proof.
  unfold Game.question. destruct (Game._question g) as [q|] eqn:Eq.
  - rewrite Eq. split_and!; try done.
  - destruct (Pool.question rt net pool) as [q pool1].
    cbn [Game.towin Game.counts Game._question]. split_and!; try done.
    intros Hq. by destruct q.
Qed.

(** *** The leader board *)

Section LeaderBoard.

Import GameView.

Lemma insert_perm x l : insert x l ≡ₚ x :: l.
Proof.
  induction l as [|y l IH]; [done|]. simpl.
  destruct (key x <? key y)%Z; [|done]. rewrite IH. apply Permutation_swap.
Qed.

Lemma sorted_perm items : sorted items ≡ₚ items.
Proof.
  induction items as [|x items IH]; [done|].
  cbn [sorted foldr]. fold (sorted items). by rewrite insert_perm, IH.
Qed.

Lemma insert_sorted x l :
  StronglySorted (λ y z, (key z ≤ key y)%Z) l →
  StronglySorted (λ y z, (key z ≤ key y)%Z) (insert x l).
Proof.
  induction 1 as [|y l Hl IH Hy]; [repeat constructor|]. simpl.
  destruct (Z.ltb_spec (key x) (key y)).
  - constructor; [done|]. rewrite insert_perm. constructor; [lia|done].
  - constructor; [by constructor|]. constructor; [done|].
    eapply Forall_impl; [done|]. simpl. intros z Hz. lia.
Qed.

Lemma sorted_sorted items :
  StronglySorted (λ y z, (key z ≤ key y)%Z) (sorted items).
Proof.
  induction items as [|x items IH]; [constructor|].
  cbn [sorted foldr]. by apply insert_sorted.
Qed.

Lemma insert_stable v x l :
  StronglySorted (λ y z, (key z ≤ key y)%Z) l →
  filter (λ y, key y = v) (insert x l) = filter (λ y, key y = v) (x :: l).
Proof.
  induction 1 as [|y l Hl IH Hy]; [done|]. simpl insert.
  destruct (Z.ltb_spec (key x) (key y)); [|done].
  rewrite (filter_cons _ y), IH, !(filter_cons _ x), (filter_cons _ y).
  destruct (decide (key y = v)), (decide (key x = v)); try done. lia.
Qed.

Lemma sorted_stable v items :
  filter (λ y, key y = v) (sorted items) = filter (λ y, key y = v) items.
Proof.
  induction items as [|x items IH]; [done|].
  cbn [sorted foldr]. fold (sorted items).
  rewrite insert_stable by apply sorted_sorted.
  by rewrite !filter_cons, IH.
Qed.

Lemma take_of_imap {A B} (l : list A) : ∀ (f : nat → A → B) n,
  take n (imap f l) = imap f (take n l).
Proof.
  induction l as [|x l IH]; intros f n; [by destruct n|].
  destruct n as [|n]; [done|]. rewrite imap_cons. simpl. by rewrite IH.
Qed.

End LeaderBoard.

(** X17: the leader board of [Game.__str__] lists the players by score,
    highest first, players with equal scores in the order in which the
    counter iterates over them, and stops after five: its entries are the
    rendering, with ranks from 1, of the first five of a list that is a
    permutation of the items, is sorted by descending score, and keeps
    the items of every single score in their order; who is left out has
    no higher score than anyone listed. *)
Theorem leader_board_ranks (items : list (list N * Z)) :
  GameView.scores items = imap GameView.entry (take 5 (GameView.sorted items)) ∧
  length (GameView.scores items) = 5 `min` length items ∧
  GameView.sorted items ≡ₚ items ∧
  StronglySorted (λ y z, (GameView.key z ≤ GameView.key y)%Z) (GameView.sorted items) ∧
  (∀ v, filter (λ y, GameView.key y = v) (GameView.sorted items)
        = filter (λ y, GameView.key y = v) items) ∧
  (∀ y z, y ∈ take 5 (GameView.sorted items) → z ∈ drop 5 (GameView.sorted items) →
          (GameView.key z ≤ GameView.key y)%Z).
Proof.
  split_and!.
  - unfold GameView.scores. by rewrite take_of_imap.
  - unfold GameView.scores. rewrite length_take, length_imap.
    by rewrite (Permutation_length (sorted_perm items)).
  - apply sorted_perm.
  - apply sorted_sorted.
  - intros v. apply sorted_stable.
  - intros y z Hy Hz. pose proof (sorted_sorted items) as Hs.
    rewrite <- (take_drop 5 (GameView.sorted items)) in Hs.
    by apply (StronglySorted_app_1_elem_of _ _ _ y z Hs).
Qed.

(** ** The controller, event by event *)

Lemma question_keeps_scores (rt : Runtime) (net : Pool.Net) (g : Game.t)
    (pool : option Pool.t) :
  Game.towin (Game.question rt net g pool).1.2 = Game.towin g ∧
  Game.counts (Game.question rt net g pool).1.2 = Game.counts g ∧
  Game._question (Game.question rt net g pool).1.2 = (Game.question rt net g pool).1.1.
Proof.
  unfold Game.question. destruct (Game._question g) eqn:E; [done|].
  by destruct (Pool.question rt net pool).
Qed.

(** X18: every event is answered by at most one message: neither a chat
    line nor a pulse ever makes the controller post twice. *)
Theorem at_most_one_post (rt : Runtime) (net : Pool.Net) (self : TriviaCommand.t)
    (allowed : bool) (cmd remainder : list N) (m : Message) (now : Q) :
  length (TriviaCommand.call rt net allowed self cmd remainder m).2 ≤ 1 ∧
  length (TriviaCommand.onpulse rt net now self).2 ≤ 1.
Proof.
  split.
  - unfold TriviaCommand.call. destruct allowed; cbn [negb]; [|simpl; lia].
    destruct (bool_decide _); destruct (TriviaCommand.game self) as [g|];
      try (simpl; lia).
    destruct (Game.check rt g (nick m) (msg m)) as [[[| |]|e] g']; try (simpl; lia).
    destruct (Game.question rt net g' (TriviaCommand.pool self)) as [[[q|] g''] pool'];
      simpl; lia.
  - unfold TriviaCommand.onpulse.
    destruct (TriviaCommand.game self) as [g|]; [|simpl; lia].
    destruct (Qeq_bool _ _).
    + destruct (Game.question rt net g (TriviaCommand.pool self)) as [[q g'] pool'].
      simpl. lia.
    + destruct (negb _); [|simpl; lia].
      destruct (Game.question rt net g (TriviaCommand.pool self)) as [[[q|] g'] pool'];
        simpl; lia.
Qed.

(** X19: a pulse never ends a game and never touches the threshold or a
    score; without a game it does nothing at all. *)
Theorem pulse_keeps_the_scores (rt : Runtime) (net : Pool.Net) (now : Q)
    (self : TriviaCommand.t) :
  match TriviaCommand.game self with
  | None => TriviaCommand.onpulse rt net now self = (Return (), self, [])
  | Some g =>
    ∃ g', TriviaCommand.game (TriviaCommand.onpulse rt net now self).1.2 = Some g' ∧
          Game.towin g' = Game.towin g ∧ Game.counts g' = Game.counts g
  end.
Proof.
  unfold TriviaCommand.onpulse. destruct (TriviaCommand.game self) as [g|] eqn:Eg; [|done].
  pose proof (question_keeps_scores rt net g (TriviaCommand.pool self)) as Hq.
  destruct (Game.question rt net g (TriviaCommand.pool self)) as [[q g'] pool'].
  destruct Hq as (Ht & Hc & _).
  destruct (Qeq_bool _ _); [by exists g'|].
  destruct (negb _); [|by exists g].
  destruct q; [by exists (Game.skip g')|by exists g'].
Qed.

Lemma check_cases (rt : Runtime) (g : Game.t) (p a : list N) :
  (Game._question g = None ∧
   Game.check rt g p a = (Raise (ValueError "no question asked"), g)) ∨
  (∃ q, Game._question g = Some q ∧ Question.check rt q a = false ∧
   Game.check rt g p a = (Return INCORRECT, g)) ∨
  (∃ q, Game._question g = Some q ∧ Question.check rt q a = true ∧
   let g' := Game.mk (Game.towin g)
               (<[p := (Game.count g p + 1)%Z]> (Game.counts g)) (Some q) in
   Game.count g' p = (Game.count g p + 1)%Z ∧
   (∀ p', p' ≠ p → Game.count g' p' = Game.count g p') ∧
   Game.check rt g p a =
     (Return (if (Game.towin g <=? Game.count g p + 1)%Z then WON else CORRECT), g')).
Proof.
  unfold Game.check. destruct (Game._question g) as [q|] eqn:Eq; [|by left].
  right. destruct (Question.check rt q a) eqn:Ec; [right|left; by exists q].
  exists q. split_and!; try done.
  - unfold Game.count at 1. cbn [Game.counts]. by rewrite lookup_insert_eq.
  - intros p' Hne. unfold Game.count. cbn [Game.counts]. by rewrite lookup_insert_ne.
  - cbn [Game.towin]. unfold Game.count at 1. cbn [Game.counts].
    rewrite lookup_insert_eq. cbn [default from_option].
    by destruct (_ <=? _)%Z.
Qed.

Lemma count_of_counts (g g' : Game.t) p :
  Game.counts g' = Game.counts g → Game.count g' p = Game.count g p.
Proof. unfold Game.count. by intros ->. Qed.

Lemma step_keeps_scores_below (rt : Runtime) (self : TriviaCommand.t) (e : event) :
  scores_below_threshold self → scores_below_threshold (step rt self e).
Proof.
  intros Hinv.
  assert (Hkeep : ∀ g g' d pool,
    TriviaCommand.game self = Some g →
    Game.towin g' = Game.towin g → Game.counts g' = Game.counts g →
    scores_below_threshold (TriviaCommand.mk (Some g') d pool)).
  { intros g g' d pool Hg Ht Hc. unfold scores_below_threshold in *.
    rewrite Hg in Hinv. cbn [TriviaCommand.game]. rewrite Ht.
    split; [apply Hinv|]. intros p. rewrite (count_of_counts g g' p Hc). apply Hinv. }
  destruct e as [allowed cmd remainder m net|now net]; cbn [step].
  - unfold TriviaCommand.call. destruct allowed; cbn [negb fst snd]; [|done].
    destruct (bool_decide (cmd = lit "!trivia")).
    + destruct (TriviaCommand.game self) as [g|]; cbn [fst snd]; [done|].
      unfold scores_below_threshold. cbn [TriviaCommand.game Game.new Game.towin].
      split; [destruct (py_int _ _); lia|]. intros p. unfold Game.count, Game.new.
      cbn [Game.counts Game.towin]. rewrite lookup_empty. cbn.
      destruct (py_int _ _); lia.
    + destruct (TriviaCommand.game self) as [g|] eqn:Eg; cbn [fst snd]; [|done].
      destruct (check_cases rt g (nick m) (msg m))
        as [[_ ->]|[(q & _ & _ & ->)|(q & Hq & _ & Hp & Hother & ->)]].
      * cbn [fst snd]. by apply (Hkeep g).
      * cbn [fst snd]. by apply (Hkeep g).
      * destruct (Z.leb_spec (Game.towin g) (Game.count g (nick m) + 1)); [done|].
        set (g' := Game.mk _ _ _) in *.
        pose proof (question_keeps_scores rt net g' (TriviaCommand.pool self)) as Hk.
        destruct (Game.question rt net g' (TriviaCommand.pool self)) as [[q' g''] pool'].
        cbn [fst snd] in Hk. destruct Hk as (Ht' & Hc' & _).
        assert (Hinv' : ∀ d pool, scores_below_threshold
                  (TriviaCommand.mk (Some (Game.skip g'')) d pool)
                ∧ scores_below_threshold (TriviaCommand.mk (Some g'') d pool)).
        { intros d pool. unfold scores_below_threshold in *. rewrite Eg in Hinv.
          destruct Hinv as [H1 Hc].
          cbn [TriviaCommand.game Game.skip Game.towin]. rewrite Ht'.
          cbn [Game.towin g'].
          assert (Hall : ∀ p, (0 ≤ Game.count g' p < Game.towin g)%Z).
          { intros p. destruct (decide (p = nick m)) as [->|Hne].
            - rewrite Hp. specialize (Hc (nick m)). lia.
            - rewrite (Hother p Hne). apply Hc. }
          split; (split; [done|]); intros p.
          - rewrite (count_of_counts g' (Game.skip g'') p Hc'). apply Hall.
          - rewrite (count_of_counts g' g'' p Hc'). apply Hall. }
        destruct (Hinv' 0%Q pool') as [H1 H2].
        destruct q'; cbn [fst snd]; [exact H1|exact H2].
  - unfold TriviaCommand.onpulse.
    destruct (TriviaCommand.game self) as [g|] eqn:Eg; cbn [fst snd]; [|done].
    pose proof (question_keeps_scores rt net g (TriviaCommand.pool self)) as Hk.
    destruct (Game.question rt net g (TriviaCommand.pool self)) as [[q' g'] pool'].
    cbn [fst snd] in Hk. destruct Hk as (Ht' & Hc' & _).
    destruct (Qeq_bool _ _); cbn [fst snd]; [by apply (Hkeep g)|].
    destruct (negb _); cbn [fst snd]; [|done].
    destruct q'; cbn [fst snd]; by apply (Hkeep g).
Qed.

(** X20: whatever chat lines and pulses a fresh controller receives, and
    whatever the sources answer, in the state it reaches a running game has
    a threshold of at least 1 and every player's score is at least 0 and
    below the threshold: a game never outlives a score that reaches it. *)
Theorem reachable_scores_below_threshold (rt : Runtime) (pool : option Pool.t)
    (events : list event) :
  scores_below_threshold (run rt events (TriviaCommand.new pool)).
Proof.
  unfold run. assert (H0 : scores_below_threshold (TriviaCommand.new pool)) by done.
  revert H0. generalize (TriviaCommand.new pool).
  induction events as [|e events IH]; intros self Hinv; [done|].
  cbn [foldl]. by apply IH, step_keeps_scores_below.
Qed.

(** X21: a chat line that the routing predicate admits makes [__call__]
    raise in one case only: the sender is allowed, the line is not the
    start command and the running game has no current question.  Then it
    raises the [ValueError] of [Game.check], posts nothing and leaves the
    state as it is; in every other case it returns. *)
Theorem routed_call_raises_only_without_question (rt : Runtime) (net : Pool.Net)
    (allowed : bool) (self : TriviaCommand.t) (cmd remainder : list N) (m : Message)
    (Hroute : TriviaCommand.handles self cmd = true) :
  ((allowed = true ∧ cmd ≠ lit "!trivia" ∧
    ∃ g, TriviaCommand.game self = Some g ∧ Game._question g = None) →
   TriviaCommand.call rt net allowed self cmd remainder m
   = (Raise (ValueError "no question asked"), self, [])) ∧
  (¬ (allowed = true ∧ cmd ≠ lit "!trivia" ∧
      ∃ g, TriviaCommand.game self = Some g ∧ Game._question g = None) →
   ∃ b, (TriviaCommand.call rt net allowed self cmd remainder m).1.1 = Return b).
Proof.
  unfold TriviaCommand.call, TriviaCommand.handles in *. split.
  - intros (-> & Hcmd & g & Hg & Hq). cbn [negb].
    rewrite bool_decide_eq_false_2 by done. rewrite Hg.
    destruct (check_cases rt g (nick m) (msg m))
      as [[_ ->]|[(q & Hq' & _)|(q & Hq' & _)]]; [|congruence|congruence].
    destruct self; simpl in *; by subst.
  - intros Hnot. destruct allowed; cbn [negb]; [|by eexists].
    destruct (decide (cmd = lit "!trivia")) as [Hcmd|Hcmd].
    + rewrite bool_decide_eq_true_2 by done.
      destruct (TriviaCommand.game self); by eexists.
    + rewrite bool_decide_eq_false_2 in Hroute |- * by done.
      apply bool_decide_eq_true_1 in Hroute.
      destruct (TriviaCommand.game self) as [g|] eqn:Eg; [|done].
      destruct (check_cases rt g (nick m) (msg m))
        as [[Hq _]|[(q & _ & _ & ->)|(q & Hq & _ & _ & _ & ->)]].
      * exfalso. apply Hnot. split_and!; [done|done|by exists g].
      * by eexists.
      * destruct (_ <=? _)%Z; [by eexists|].
        unfold Game.question. cbn [Game._question]. by eexists.
Qed.

Lemma routed_call_raises_only_without_question_witness :
  ((true = true ∧ lit "hello" ≠ lit "!trivia" ∧
    ∃ g, TriviaCommand.game awaiting_announce = Some g ∧ Game._question g = None) →
   TriviaCommand.call ascii_only silent true awaiting_announce (lit "hello") []
     (says "bob" "hello")
   = (Raise (ValueError "no question asked"), awaiting_announce, [])) ∧
  (¬ (true = true ∧ lit "hello" ≠ lit "!trivia" ∧
      ∃ g, TriviaCommand.game awaiting_announce = Some g ∧ Game._question g = None) →
   ∃ b, (TriviaCommand.call ascii_only silent true awaiting_announce (lit "hello") []
           (says "bob" "hello")).1.1 = Return b).
Proof.
  apply (routed_call_raises_only_without_question ascii_only silent true
           awaiting_announce (lit "hello") [] (says "bob" "hello")).
  vm_compute. reflexivity.
Defined.

(** X22: a pulse raises in one case only: a game runs, the deadline is set
    and has passed, the game has no current question and the pool, asked
    for one, has none to give.  Then it raises [AttributeError] and posts
    nothing; in every other case it returns. *)
Theorem pulse_raises_only_when_exhausted (rt : Runtime) (net : Pool.Net) (now : Q)
    (self : TriviaCommand.t) :
  ((∃ g, TriviaCommand.game self = Some g ∧ Game._question g = None ∧
         ¬ (TriviaCommand.deadline self == 0)%Q ∧ (TriviaCommand.deadline self <= now)%Q ∧
         (Pool.question rt net (TriviaCommand.pool self)).1 = None) →
   (TriviaCommand.onpulse rt net now self).1.1
     = Raise (AttributeError "'NoneType' object has no attribute 'answer'") ∧
   (TriviaCommand.onpulse rt net now self).2 = []) ∧
  (¬ (∃ g, TriviaCommand.game self = Some g ∧ Game._question g = None ∧
           ¬ (TriviaCommand.deadline self == 0)%Q ∧ (TriviaCommand.deadline self <= now)%Q ∧
           (Pool.question rt net (TriviaCommand.pool self)).1 = None) →
   (TriviaCommand.onpulse rt net now self).1.1 = Return ()).
Proof.
  unfold TriviaCommand.onpulse, TriviaCommand.Qgt_bool. split.
  - intros (g & -> & Hq & Hd & Hnow & Hpool).
    destruct (Qeq_bool _ _) eqn:E0; [by apply Qeq_bool_iff in E0|].
    apply Qle_bool_iff in Hnow. rewrite Hnow. cbn [negb].
    unfold Game.question. rewrite Hq.
    destruct (Pool.question rt net (TriviaCommand.pool self)) as [q pool'].
    simpl in Hpool. by subst q.
  - intros Hnot. destruct (TriviaCommand.game self) as [g|] eqn:Eg; [|done].
    destruct (Qeq_bool _ _) eqn:E0.
    { by destruct (Game.question rt net g (TriviaCommand.pool self)) as [[q g'] pool']. }
    destruct (Qle_bool _ _) eqn:Ele; cbn [negb]; [|done].
    unfold Game.question. destruct (Game._question g) as [q|] eqn:Eq; [done|].
    destruct (Pool.question rt net (TriviaCommand.pool self)) as [[q|] pool'] eqn:Ep;
      [done|].
    exfalso. apply Hnot. exists g. split_and!; try done.
    + intros H0. apply Qeq_bool_iff in H0. congruence.
    + by apply Qle_bool_iff.
Qed.

Lemma pulse_raises_only_when_exhausted_witness :
  (TriviaCommand.onpulse ascii_only silent 131
     (TriviaCommand.mk (Some (Game.new 5)) 130 (Some Pool.new))).1.1
    = Raise (AttributeError "'NoneType' object has no attribute 'answer'") ∧
  (TriviaCommand.onpulse ascii_only silent 131
     (TriviaCommand.mk (Some (Game.new 5)) 130 (Some Pool.new))).2 = [].
Proof.
  apply (proj1 (pulse_raises_only_when_exhausted ascii_only silent 131
                  (TriviaCommand.mk (Some (Game.new 5)) 130 (Some Pool.new)))).
  exists (Game.new 5). split_and!; try reflexivity.
  - intros H. vm_compute in H. discriminate.
  - vm_compute. discriminate.
Defined.

(** X23: when the deadline has passed and the question is still open, the
    pulse reveals the answer with the "Too slow" message, drops the
    question, unsets the deadline and leaves threshold, scores and pool as
    they are; the pulse after that takes the last question [q'] of the
    stock of the pool, announces it and sets a new deadline. *)
Theorem timeout_then_next_question (rt : Runtime) (net net' : Pool.Net) (now now' : Q)
    (self : TriviaCommand.t) (g : Game.t) (q q' : Question.t)
    (front : list Question.t)
    (Hgame : TriviaCommand.game self = Some g)
    (Hq : Game._question g = Some q)
    (Hset : ¬ (TriviaCommand.deadline self == 0)%Q)
    (Hpast : (TriviaCommand.deadline self <= now)%Q)
    (Hstock : stock rt net' (TriviaCommand.pool self) = front ++ [q']) :
  TriviaCommand.onpulse rt net now self
  = (Return (), TriviaCommand.mk (Some (Game.skip g)) 0 (TriviaCommand.pool self),
     [post "Too slow! Answer: {}" [VStr (Question.answer q)]]) ∧
  TriviaCommand.onpulses rt [(net, now); (net', now')] self
  = (TriviaCommand.mk (Some (Game.mk (Game.towin g) (Game.counts g) (Some q')))
       (now' + 30) (Some (Pool.mk front)),
     [post "Too slow! Answer: {}" [VStr (Question.answer q)];
      post "{}" [VQuestion q']]).
Proof.
  assert (H1 : TriviaCommand.onpulse rt net now self
    = (Return (), TriviaCommand.mk (Some (Game.skip g)) 0 (TriviaCommand.pool self),
       [post "Too slow! Answer: {}" [VStr (Question.answer q)]])).
  { unfold TriviaCommand.onpulse, TriviaCommand.Qgt_bool. rewrite Hgame.
    destruct (Qeq_bool _ _) eqn:E0; [by apply Qeq_bool_iff in E0|].
    apply Qle_bool_iff in Hpast. rewrite Hpast. cbn [negb].
    unfold Game.question. by rewrite Hq. }
  split; [done|]. cbn [TriviaCommand.onpulses]. rewrite H1.
  unfold TriviaCommand.onpulse. cbn [TriviaCommand.game TriviaCommand.deadline
    TriviaCommand.pool]. change (Qeq_bool 0 0) with true. cbn iota.
  unfold Game.question, Game.skip. cbn [Game._question Game.towin Game.counts].
  by rewrite (question_of_stock _ _ _ _ _ Hstock).
Qed.

Lemma timeout_then_next_question_witness :
  TriviaCommand.onpulse ascii_only silent 131 expired
  = (Return (),
     TriviaCommand.mk (Some (Game.skip (Game.mk 5 ∅ (Some paris)))) 0
       (TriviaCommand.pool expired),
     [post "Too slow! Answer: {}" [VStr (Question.answer paris)]]) ∧
  TriviaCommand.onpulses ascii_only [(silent, 131%Q); (jservice_only [cheap], 136%Q)]
    expired
  = (TriviaCommand.mk
       (Some (Game.mk (Game.towin (Game.mk 5 ∅ (Some paris)))
                (Game.counts (Game.mk 5 ∅ (Some paris)))
                (Some (Question.mk 0 (lit "Trivia: Capital of France?") (lit "Paris")))))
       (136 + 30) (Some (Pool.mk [])),
     [post "Too slow! Answer: {}" [VStr (Question.answer paris)];
      post "{}"
        [VQuestion (Question.mk 0 (lit "Trivia: Capital of France?") (lit "Paris"))]]).
Proof.
  apply (timeout_then_next_question ascii_only silent (jservice_only [cheap]) 131 136
           expired (Game.mk 5 ∅ (Some paris)) paris
           (Question.mk 0 (lit "Trivia: Capital of France?") (lit "Paris")) []).
  - reflexivity.
  - reflexivity.
  - intros H. vm_compute in H. discriminate.
  - vm_compute. discriminate.
  - reflexivity.
Defined.

(** X24: a matching answer that does not yet reach the threshold is
    consumed: the sender's score goes up by one, the expected answer is
    posted, the question is dropped and the deadline unset, so that the
    next pulse announces a new question; the pool is not touched. *)
Theorem correct_answer_moves_on (rt : Runtime) (net : Pool.Net)
    (self : TriviaCommand.t) (g : Game.t) (q : Question.t)
    (cmd remainder : list N) (m : Message)
    (Hgame : TriviaCommand.game self = Some g)
    (Hq : Game._question g = Some q)
    (Hcmd : cmd ≠ lit "!trivia")
    (Hok : Question.check rt q (msg m) = true)
    (Hbelow : (Game.count g (nick m) + 1 < Game.towin g)%Z) :
  TriviaCommand.call rt net true self cmd remainder m
  = (Return true,
     TriviaCommand.mk
       (Some (Game.mk (Game.towin g)
                (<[nick m := (Game.count g (nick m) + 1)%Z]> (Game.counts g)) None))
       0 (TriviaCommand.pool self),
     [post "Indeed, {}: {}" [VStr (nick m); VStr (Question.answer q)]]).
Proof.
  unfold TriviaCommand.call. cbn [negb]. rewrite bool_decide_eq_false_2 by done.
  rewrite Hgame.
  destruct (check_cases rt g (nick m) (msg m))
    as [[Hn _]|[(q' & Hq' & Hc & _)|(q' & Hq' & _ & _ & _ & ->)]]; try congruence.
  assert (q' = q) as -> by congruence.
  destruct (Z.leb_spec (Game.towin g) (Game.count g (nick m) + 1)); [lia|].
  reflexivity.
Qed.

Lemma correct_answer_moves_on_witness :
  TriviaCommand.call ascii_only silent true awaiting_answer (lit "paris") []
    (says "bob" "paris")
  = (Return true,
     TriviaCommand.mk
       (Some (Game.mk (Game.towin (Game.mk 5 ∅ (Some paris)))
                (<[nick (says "bob" "paris") :=
                     (Game.count (Game.mk 5 ∅ (Some paris)) (nick (says "bob" "paris")) + 1)%Z]>
                   (Game.counts (Game.mk 5 ∅ (Some paris)))) None))
       0 (TriviaCommand.pool awaiting_answer),
     [post "Indeed, {}: {}" [VStr (nick (says "bob" "paris"));
                             VStr (Question.answer paris)]]).
Proof.
  apply (correct_answer_moves_on ascii_only silent awaiting_answer
           (Game.mk 5 ∅ (Some paris)) paris (lit "paris") [] (says "bob" "paris")).
  - reflexivity.
  - reflexivity.
  - vm_compute. discriminate.
  - vm_compute. reflexivity.
  - vm_compute. reflexivity.
Defined.

(** X25: a matching answer that brings the sender's score to the threshold
    ends the game: the victory message is posted, no game is left, and
    from then on the routing predicate admits the start command only. *)
Theorem winning_answer_ends_the_game (rt : Runtime) (net : Pool.Net)
    (self : TriviaCommand.t) (g : Game.t) (q : Question.t)
    (cmd remainder cmd' : list N) (m : Message)
    (Hgame : TriviaCommand.game self = Some g)
    (Hq : Game._question g = Some q)
    (Hcmd : cmd ≠ lit "!trivia")
    (Hok : Question.check rt q (msg m) = true)
    (Hwin : (Game.towin g ≤ Game.count g (nick m) + 1)%Z) :
  TriviaCommand.call rt net true self cmd remainder m
  = (Return true,
     TriviaCommand.mk None (TriviaCommand.deadline self) (TriviaCommand.pool self),
     [post "WE GOT A WINRAR! Congrats {}" [VStr (nick m)]]) ∧
  TriviaCommand.handles
    (TriviaCommand.call rt net true self cmd remainder m).1.2 cmd'
  = bool_decide (cmd' = lit "!trivia").
Proof.
  assert (H : TriviaCommand.call rt net true self cmd remainder m
    = (Return true,
       TriviaCommand.mk None (TriviaCommand.deadline self) (TriviaCommand.pool self),
       [post "WE GOT A WINRAR! Congrats {}" [VStr (nick m)]])).
  { unfold TriviaCommand.call. cbn [negb]. rewrite bool_decide_eq_false_2 by done.
    rewrite Hgame.
    destruct (check_cases rt g (nick m) (msg m))
      as [[Hn _]|[(q' & Hq' & Hc & _)|(q' & Hq' & _ & _ & _ & ->)]]; try congruence.
    destruct (Z.leb_spec (Game.towin g) (Game.count g (nick m) + 1)); [done|lia]. }
  split; [done|]. rewrite H. unfold TriviaCommand.handles.
  cbn [fst snd TriviaCommand.game]. by destruct (bool_decide (cmd' = lit "!trivia")).
Qed.

Lemma winning_answer_ends_the_game_witness :
  TriviaCommand.call ascii_only silent true
    (TriviaCommand.mk (Some match_point) 130 None) (lit "paris") [] (says "alice" "paris")
  = (Return true,
     TriviaCommand.mk None
       (TriviaCommand.deadline (TriviaCommand.mk (Some match_point) 130 None))
       (TriviaCommand.pool (TriviaCommand.mk (Some match_point) 130 None)),
     [post "WE GOT A WINRAR! Congrats {}" [VStr (nick (says "alice" "paris"))]]) ∧
  TriviaCommand.handles
    (TriviaCommand.call ascii_only silent true
       (TriviaCommand.mk (Some match_point) 130 None) (lit "paris") []
       (says "alice" "paris")).1.2 (lit "hello")
  = bool_decide (lit "hello" = lit "!trivia").
Proof.
  apply (winning_answer_ends_the_game ascii_only silent
           (TriviaCommand.mk (Some match_point) 130 None) match_point paris
           (lit "paris") [] (lit "hello") (says "alice" "paris")).
  - reflexivity.
  - reflexivity.
  - vm_compute. discriminate.
  - vm_compute. reflexivity.
  - vm_compute. discriminate.
Defined.

(** ** Stripping *)

Section Strip.

Context (rt : Runtime).

Lemma lstrip_split s :
  ∃ pre, s = pre ++ lstrip rt s ∧ Forall (λ c, isspace rt c = true) pre
         ∧ ∀ c, head (lstrip rt s) = Some c → isspace rt c = false.
Proof.
  induction s as [|c s (pre & Hs & Hpre & Hhead)]; [by exists []|].
  simpl. destruct (isspace rt c) eqn:E.
  - exists (c :: pre). split_and!; [by rewrite Hs at 1|by constructor|done].
  - exists []. split_and!; [done|constructor|]. by intros ? [= <-].
Qed.

Lemma rstrip_split s :
  ∃ suf, s = rstrip rt s ++ suf ∧ Forall (λ c, isspace rt c = true) suf
         ∧ ∀ c, last (rstrip rt s) = Some c → isspace rt c = false.
Proof.
  unfold rstrip. destruct (lstrip_split (rev s)) as (pre & Hs & Hpre & Hhead).
  exists (rev pre). split_and!.
  - rewrite <- rev_app_distr, <- Hs. by rewrite rev_involutive.
  - by apply Forall_rev.
  - intros c Hc. apply Hhead. rewrite <- Hc. clear.
    generalize (lstrip rt (rev s)). intros l. destruct l as [|x l]; [done|].
    simpl rev. by rewrite last_snoc.
Qed.

Lemma strip_split s :
  ∃ pre suf, s = pre ++ strip rt s ++ suf ∧
    Forall (λ c, isspace rt c = true) pre ∧ Forall (λ c, isspace rt c = true) suf ∧
    (∀ c, head (strip rt s) = Some c → isspace rt c = false) ∧
    (∀ c, last (strip rt s) = Some c → isspace rt c = false).
Proof.
  unfold strip. destruct (lstrip_split s) as (pre & Hs & Hpre & Hhead).
  destruct (rstrip_split (lstrip rt s)) as (suf & Hl & Hsuf & Hlast).
  exists pre, suf. split_and!; try done.
  - by rewrite <- Hl.
  - intros c Hc. apply Hhead. rewrite Hl.
    destruct (rstrip rt (lstrip rt s)); [done|]. done.
Qed.

End Strip.

(** X26: [unesc] removes white space from the two ends of the unescaped
    text and nothing else: the unescaped text is the result between two
    runs of white space, and the result neither starts nor ends with white
    space. *)
Theorem unesc_strips_the_margins (rt : Runtime) (string : list N) :
  ∃ pre suf,
    html_unescape rt string = pre ++ Pool.unesc rt string ++ suf ∧
    Forall (λ c, isspace rt c = true) pre ∧ Forall (λ c, isspace rt c = true) suf ∧
    (∀ c, head (Pool.unesc rt string) = Some c → isspace rt c = false) ∧
    (∀ c, last (Pool.unesc rt string) = Some c → isspace rt c = false).
Proof. unfold Pool.unesc. apply strip_split. Qed.

(** ** Numerals as threshold *)

Section Numerals.

Context (rt : Runtime).

Lemma lit_String a s : lit (String a s) = N_of_ascii a :: lit s.
Proof. reflexivity. Qed.

Lemma int_digits_step c v acc after_digit rest :
  (c =? 95)%N = false → decimal_digit rt c = Some v →
  int_digits rt acc after_digit (c :: rest) = int_digits rt (10 * acc + v) true rest.
Proof. intros H1 H2. cbn [int_digits]. by rewrite H1, H2. Qed.

Lemma int_digits_uint d : ∀ acc after_digit,
  int_digits rt acc after_digit (lit (NilEmpty.string_of_uint d)) =
  match d with
  | Decimal.Nil => if after_digit then Some acc else None
  | _ => Some (uint_val acc d)
  end.
Proof.
  induction d as [|d IH|d IH|d IH|d IH|d IH|d IH|d IH|d IH|d IH|d IH];
    intros acc after_digit; [reflexivity|..];
    cbn [NilEmpty.string_of_uint]; rewrite lit_String;
    [rewrite (int_digits_step _ 0) by (vm_compute; reflexivity)
    |rewrite (int_digits_step _ 1) by (vm_compute; reflexivity)
    |rewrite (int_digits_step _ 2) by (vm_compute; reflexivity)
    |rewrite (int_digits_step _ 3) by (vm_compute; reflexivity)
    |rewrite (int_digits_step _ 4) by (vm_compute; reflexivity)
    |rewrite (int_digits_step _ 5) by (vm_compute; reflexivity)
    |rewrite (int_digits_step _ 6) by (vm_compute; reflexivity)
    |rewrite (int_digits_step _ 7) by (vm_compute; reflexivity)
    |rewrite (int_digits_step _ 8) by (vm_compute; reflexivity)
    |rewrite (int_digits_step _ 9) by (vm_compute; reflexivity)];
    rewrite IH; by destruct d.
Qed.

Lemma uint_val_acc d : ∀ acc, uint_val (Z.pos acc) d = Z.pos (Pos.of_uint_acc d acc).
Proof.
  induction d as [|d IH|d IH|d IH|d IH|d IH|d IH|d IH|d IH|d IH|d IH];
    intros acc; [reflexivity|..]; cbn [uint_val Pos.of_uint_acc];
    rewrite <- IH; f_equal; lia.
Qed.

Lemma uint_val_0 d : uint_val 0 d = Z.of_N (Pos.of_uint d).
Proof.
  induction d as [|d IH|d IH|d IH|d IH|d IH|d IH|d IH|d IH|d IH|d IH];
    [reflexivity|exact IH|..]; cbn [uint_val Pos.of_uint Z.of_N];
    rewrite <- uint_val_acc; reflexivity.
Qed.

Lemma uint_chars d :
  Forall (λ c, (48 ≤ c ∧ c ≤ 57)%N) (lit (NilEmpty.string_of_uint d)).
Proof.
  induction d; cbn [NilEmpty.string_of_uint]; rewrite ?lit_String;
    constructor; try done; cbn; lia.
Qed.

Lemma numeral_not_space c :
  numeral_char c → isspace rt c = false ∧ int_isspace rt c = false.
Proof.
  intros Hc. unfold isspace, int_isspace, between.
  assert (c < 128)%N by (destruct Hc as [->|?]; lia).
  destruct (N.ltb_spec c 128); [|lia].
  destruct Hc as [->|[H1 H2]]; [done|].
  destruct (N.leb_spec 9 c), (N.leb_spec c 13), (N.leb_spec 28 c), (N.leb_spec c 32),
    (N.eqb_spec c 32); simpl; split; try done; lia.
Qed.

Lemma lstrip_spaces pre s :
  Forall (λ c, isspace rt c = true) pre → lstrip rt (pre ++ s) = lstrip rt s.
Proof. induction 1 as [|c pre Hc _ IH]; [done|]. simpl. by rewrite Hc. Qed.

Lemma lstrip_head_kept c s : isspace rt c = false → lstrip rt (c :: s) = c :: s.
Proof. intros H. simpl. by rewrite H. Qed.

Lemma int_lstrip_head_kept c s : int_isspace rt c = false → int_lstrip rt (c :: s) = c :: s.
Proof. intros H. simpl. by rewrite H. Qed.

(** White space around a numeral is all that [strip] removes. *)
Lemma strip_padded pre d suf :
  Forall (λ c, isspace rt c = true) pre → Forall (λ c, isspace rt c = true) suf →
  d ≠ [] → Forall numeral_char d → strip rt (pre ++ d ++ suf) = d.
Proof.
  intros Hpre Hsuf Hne Hd. unfold strip, rstrip. rewrite lstrip_spaces by done.
  destruct d as [|c d]; [done|]. inversion Hd as [|? ? Hc Hd']; subst.
  rewrite <- app_comm_cons, lstrip_head_kept by by apply numeral_not_space.
  rewrite app_comm_cons, rev_app_distr, lstrip_spaces by by apply Forall_rev.
  assert (Hrev : Forall numeral_char (rev (c :: d))) by by apply Forall_rev.
  destruct (rev (c :: d)) as [|x r] eqn:E.
  { apply (f_equal (@length N)) in E. rewrite length_rev in E. done. }
  inversion Hrev; subst.
  rewrite lstrip_head_kept by by apply numeral_not_space.
  by rewrite <- E, rev_involutive.
Qed.

Lemma int_strip_numeral d :
  d ≠ [] → Forall numeral_char d → rev (int_lstrip rt (rev (int_lstrip rt d))) = d.
Proof.
  intros Hne Hd. destruct d as [|c d]; [done|]. inversion Hd as [|? ? Hc Hd']; subst.
  rewrite int_lstrip_head_kept by by apply numeral_not_space.
  assert (Hrev : Forall numeral_char (rev (c :: d))) by by apply Forall_rev.
  destruct (rev (c :: d)) as [|x r] eqn:E.
  { apply (f_equal (@length N)) in E. rewrite length_rev in E. done. }
  inversion Hrev; subst.
  rewrite int_lstrip_head_kept by by apply numeral_not_space.
  by rewrite <- E, rev_involutive.
Qed.

Lemma int_ndigits_digits (l : list N) :
  Forall (λ c, (48 ≤ c ∧ c ≤ 57)%N) l → int_ndigits l = length l.
Proof.
  unfold int_ndigits. induction 1 as [|c l Hc _ IH]; [done|].
  rewrite filter_cons_True by lia. simpl. by rewrite IH.
Qed.

Lemma digits_parse (l : list N) :
  l ≠ [] → Forall (λ c, (48 ≤ c ∧ c ≤ 57)%N) l →
  py_int rt l
  = if too_many_digits rt (length l) then None else int_digits rt 0 false l.
Proof.
  intros Hne Hl. rewrite <- (int_ndigits_digits l Hl).
  unfold py_int. rewrite int_strip_numeral; [|done|].
  - destruct l as [|c l]; [done|]. inversion Hl as [|? ? [H1 H2] _]; subst.
    assert (H43 : c ≠ 43%N) by lia. assert (H45 : c ≠ 45%N) by lia.
    clear H1 H2 Hl Hne. cbv zeta.
    destruct c as [|p]; [reflexivity|].
    do 6 (try (destruct p as [p|p|]; try reflexivity; try congruence)).
  - eapply Forall_impl; [done|]. intros c Hc. by right.
Qed.

Lemma py_int_decimal n :
  py_int rt (GameView.decimal n)
  = if too_many_digits rt (length (GameView.decimal (Z.abs n))) then None else Some n.
Proof.
  unfold GameView.decimal. destruct n as [|p|p].
  - reflexivity.
  - change (Z.abs (Z.pos p)) with (Z.pos p).
    cbn [Z.to_int NilZero.string_of_int NilZero.string_of_uint].
    pose proof (Unsigned.to_uint_nonnil p) as Hnil.
    assert (Hs : NilZero.string_of_uint (Pos.to_uint p)
                 = NilEmpty.string_of_uint (Pos.to_uint p)).
    { unfold NilZero.string_of_uint. by destruct (Pos.to_uint p). }
    rewrite Hs, digits_parse; [| |apply uint_chars].
    + rewrite int_digits_uint, uint_val_0, Unsigned.of_to.
      destruct (too_many_digits rt _); [done|].
      by destruct (Pos.to_uint p).
    + destruct (Pos.to_uint p); done.
  - change (Z.abs (Z.neg p)) with (Z.pos p).
    cbn [Z.to_int NilZero.string_of_int NilZero.string_of_uint].
    pose proof (Unsigned.to_uint_nonnil p) as Hnil.
    assert (Hs : NilZero.string_of_uint (Pos.to_uint p)
                 = NilEmpty.string_of_uint (Pos.to_uint p)).
    { unfold NilZero.string_of_uint. by destruct (Pos.to_uint p). }
    rewrite Hs, lit_String. unfold py_int.
    rewrite int_strip_numeral; [|done|].
    + change (N_of_ascii "-") with 45%N. cbv zeta iota.
      rewrite (int_ndigits_digits _ (uint_chars _)).
      rewrite int_digits_uint, uint_val_0, Unsigned.of_to.
      destruct (too_many_digits rt _); [done|].
      by destruct (Pos.to_uint p).
    + constructor; [by left|].
      eapply Forall_impl; [apply uint_chars|]. intros c Hc. by right.
Qed.

Lemma decimal_chars n : GameView.decimal n ≠ [] ∧ Forall numeral_char (GameView.decimal n).
Proof.
  unfold GameView.decimal. destruct n as [|p|p].
  - split; [done|]. constructor; [right; cbn; lia|constructor].
  - cbn [Z.to_int NilZero.string_of_int].
    pose proof (Unsigned.to_uint_nonnil p) as Hnil.
    assert (Hs : NilZero.string_of_uint (Pos.to_uint p)
                 = NilEmpty.string_of_uint (Pos.to_uint p)).
    { unfold NilZero.string_of_uint. by destruct (Pos.to_uint p). }
    rewrite Hs. split; [by destruct (Pos.to_uint p)|].
    eapply Forall_impl; [apply uint_chars|]. intros c Hc. by right.
  - cbn [Z.to_int NilZero.string_of_int]. rewrite lit_String. split; [done|].
    assert (Hs : NilZero.string_of_uint (Pos.to_uint p)
                 = NilEmpty.string_of_uint (Pos.to_uint p)).
    { unfold NilZero.string_of_uint.
      pose proof (Unsigned.to_uint_nonnil p). by destruct (Pos.to_uint p). }
    rewrite Hs. constructor; [by left|].
    eapply Forall_impl; [apply uint_chars|]. intros c Hc. by right.
Qed.

End Numerals.

(** X27: a start command whose argument is the decimal numeral of an
    integer [n], with any white space around it, starts a game when none is
    running.  Its threshold is [max(1, n)]: parsing gives back the integer
    that the numeral writes.  Where the interpreter limits the digits of an
    integer string and the numeral has more, parsing fails and the
    threshold is 5. *)
Theorem start_with_a_numeral (rt : Runtime) (net : Pool.Net) (self : TriviaCommand.t)
    (n : Z) (pre suf : list N) (m : Message)
    (Hidle : TriviaCommand.game self = None)
    (Hpre : Forall (λ c, isspace rt c = true) pre)
    (Hsuf : Forall (λ c, isspace rt c = true) suf) :
  py_int rt (GameView.decimal n)
  = (if too_many_digits rt (length (GameView.decimal (Z.abs n))) then None else Some n) ∧
  TriviaCommand.call rt net true self (lit "!trivia") (pre ++ GameView.decimal n ++ suf) m
  = (Return true,
     TriviaCommand.mk
       (Some (Game.new (if too_many_digits rt (length (GameView.decimal (Z.abs n)))
                        then 5 else Z.max 1 n)))
       0 (TriviaCommand.pool self),
     [post "Started a trivia with {} to win"
        [VInt (if too_many_digits rt (length (GameView.decimal (Z.abs n)))
               then 5 else Z.max 1 n)]]).
Proof.
  split; [apply py_int_decimal|].
  unfold TriviaCommand.call. cbn [negb]. rewrite bool_decide_eq_true_2 by done.
  rewrite Hidle. destruct (decimal_chars n) as [Hne Hchars].
  rewrite strip_padded, py_int_decimal by done.
  by destruct (too_many_digits _ _).
Qed.

Lemma start_with_a_numeral_witness :
  py_int ascii_only (GameView.decimal 12)
  = (if too_many_digits ascii_only (length (GameView.decimal (Z.abs 12)))
     then None else Some 12%Z) ∧
  TriviaCommand.call ascii_only silent true (TriviaCommand.new None) (lit "!trivia")
    (lit " " ++ GameView.decimal 12 ++ lit "  ") (says "alice" "!trivia  12  ")
  = (Return true,
     TriviaCommand.mk
       (Some (Game.new (if too_many_digits ascii_only (length (GameView.decimal (Z.abs 12)))
                        then 5 else Z.max 1 12)))
       0 (TriviaCommand.pool (TriviaCommand.new None)),
     [post "Started a trivia with {} to win"
        [VInt (if too_many_digits ascii_only (length (GameView.decimal (Z.abs 12)))
               then 5 else Z.max 1 12)]]).
Proof.
  apply (start_with_a_numeral ascii_only silent (TriviaCommand.new None) 12
           (lit " ") (lit "  ") (says "alice" "!trivia  12  ")).
  - reflexivity.
  - repeat constructor.
  - repeat constructor.
Defined.

(** With the limit of 4300 digits, a numeral of 4300 digits is parsed and
    one of 4301 digits gives a game to 5, leading zeros counting as
    digits. *)
Lemma start_with_too_many_digits :
  py_int ascii_only (repeat 57%N 4300) = Some (10 ^ 4300 - 1)%Z ∧
  py_int ascii_only (repeat 57%N 4301) = None ∧
  py_int ascii_only (repeat 48%N 4300 ++ lit "7") = None ∧
  TriviaCommand.call ascii_only silent true (TriviaCommand.new None) (lit "!trivia")
    (repeat 57%N 4301) (says "alice" "!trivia")
  = (Return true, TriviaCommand.mk (Some (Game.new 5)) 0 None,
     [post "Started a trivia with {} to win" [VInt 5]]).
Proof. vm_compute. repeat split; reflexivity. Qed.

(** ** The blocks that the matcher reports *)

Section Genuine.

Import SequenceMatcher.

Context (a b : list N).

Lemma scan_row_genuine i blo bhi j2len js : ∀ newj2len best,
  runs_ok a b i j2len →
  (∀ j, j ∈ js → common_at a b i j) →
  runs_ok a b (S i) newj2len → genuine a b best →
  runs_ok a b (S i) (scan_row j2len i blo bhi js newj2len best).1 ∧
  genuine a b (scan_row j2len i blo bhi js newj2len best).2.
Proof.
  induction js as [|j js IH]; intros newj2len best Hold Hjs Hnew Hbest; [done|].
  simpl scan_row. assert (Hjs' : ∀ j', j' ∈ js → common_at a b i j')
    by (intros; apply Hjs; by right).
  destruct (j <? blo); [by apply IH|]. destruct (bhi <=? j); [done|].
  assert (Hij : common_at a b i j) by (apply Hjs; by left).
  set (k := j2lenget j2len j + 1).
  assert (Hk : k ≤ S i ∧ k ≤ S j ∧ ∀ t, t < k → common_at a b (i - t) (j - t)).
  { unfold k. destruct j as [|j']; simpl.
    - split_and!; [lia|lia|]. intros t Ht. assert (t = 0) as -> by lia.
      by rewrite Nat.sub_0_r.
    - destruct (j2len !! j') as [v|] eqn:E; simpl.
      + destruct (Hold _ _ E) as (i' & -> & Hv1 & Hv2 & Hrun).
        split_and!; [lia|lia|]. intros [|t] Ht; [by rewrite !Nat.sub_0_r|].
        replace (S i' - S t) with (i' - t) by lia.
        replace (S j' - S t) with (j' - t) by lia. apply Hrun. lia.
      + split_and!; [lia|lia|]. intros t Ht. assert (t = 0) as -> by lia.
        by rewrite !Nat.sub_0_r. }
  destruct Hk as (Hk1 & Hk2 & Hrun).
  apply IH; [done|done| |].
  - intros j' v. rewrite lookup_insert. case_decide as Hj.
    + intros [= <-]. subst j'. exists i. split_and!; [done|lia|lia|done].
    + apply Hnew.
  - destruct (size best <? k); [|done].
    intros t Ht. cbn [fst snd] in *.
    replace (i + 1 - k + t) with (i - (k - 1 - t)) by lia.
    replace (j + 1 - k + t) with (j - (k - 1 - t)) by lia.
    apply Hrun. lia.
Qed.

Lemma scan_rows_genuine blo bhi n : ∀ i j2len best,
  runs_ok a b i j2len → genuine a b best →
  genuine a b (scan_rows a b blo bhi (seq i n) j2len best).
Proof.
  induction n as [|n IH]; intros i j2len best Hold Hbest; [done|].
  cbn [seq scan_rows].
  assert (Hjs : ∀ j, j ∈ from_option (b2j b) [] (a !! i) → common_at a b i j).
  { destruct (a !! i) as [c|] eqn:E; cbn; [|by intros ? ?%elem_of_nil].
    unfold b2j. destruct (bpopular b c); [by intros ? ?%elem_of_nil|].
    intros j Hj%positions_elem. destruct Hj as [_ Hj]. rewrite Nat.sub_0_r in Hj.
    by exists c. }
  assert (Hempty : runs_ok a b (S i) ∅).
  { intros j v Hjv. by rewrite lookup_empty in Hjv. }
  destruct (scan_row_genuine i blo bhi j2len _ ∅ best Hold Hjs Hempty Hbest) as [H1 H2].
  destruct (scan_row _ _ _ _ _ _ _) as [newj2len best'].
  by apply IH.
Qed.

Lemma same_at_common i j : same_at a i b j = true → common_at a b i j.
Proof.
  unfold same_at, common_at. destruct (a !! i) as [x|]; [|done].
  destruct (b !! j) as [y|]; [|done]. intros ->%N.eqb_eq. by exists y.
Qed.

Lemma extend_left_genuine junk alo blo besti : ∀ bestj bestsize,
  genuine a b (besti, bestj, bestsize) →
  genuine a b (extend_left junk a b alo blo besti bestj bestsize).
Proof.
  induction besti as [|i' IH]; intros bestj bestsize H; [done|].
  destruct bestj as [|j']; [done|]. simpl extend_left.
  destruct (_ && same_at a i' b j') eqn:E; [|done].
  apply andb_prop in E as [_ E%same_at_common]. apply IH.
  intros [|t] Ht; cbn [fst snd] in *; [by rewrite !Nat.add_0_r|].
  replace (i' + S t) with (S i' + t) by lia.
  replace (j' + S t) with (S j' + t) by lia. apply H. cbn [snd]. lia.
Qed.

Lemma extend_right_genuine junk ahi bhi besti bestj room : ∀ bestsize,
  genuine a b (besti, bestj, bestsize) →
  genuine a b (besti, bestj, extend_right junk a b ahi bhi besti bestj room bestsize).
Proof.
  induction room as [|room IH]; intros bestsize H; [done|]. simpl extend_right.
  destruct (_ && same_at a (besti + bestsize) b (bestj + bestsize)) eqn:E; [|done].
  apply andb_prop in E as [_ E%same_at_common]. apply IH.
  intros t Ht. cbn [fst snd] in *.
  destruct (decide (t = bestsize)) as [->|]; [done|]. apply H. cbn [snd]. lia.
Qed.

Lemma find_longest_match_genuine alo ahi blo bhi :
  genuine a b (find_longest_match a b alo ahi blo bhi).
Proof.
  unfold find_longest_match.
  pose proof (scan_rows_genuine blo bhi (ahi - alo) alo ∅ (alo, blo, 0)) as H.
  destruct (scan_rows _ _ _ _ _ _ _) as [[i1 j1] k1].
  assert (H1 : genuine a b (i1, j1, k1)).
  { apply H.
    - intros j v Hjv. by rewrite lookup_empty in Hjv.
    - intros t Ht. cbn [snd] in Ht. lia. }
  pose proof (extend_left_genuine false alo blo i1 j1 k1 H1) as H2.
  destruct (extend_left false _ _ _ _ _ _ _) as [[i2 j2] k2].
  pose proof (extend_right_genuine false ahi bhi i2 j2 (ahi - (i2 + k2)) k2 H2) as H3.
  set (k3 := extend_right false _ _ _ _ _ _ _ _) in *.
  pose proof (extend_left_genuine true alo blo i2 j2 k3 H3) as H4.
  destruct (extend_left true _ _ _ _ _ _ _) as [[i4 j4] k4].
  apply (extend_right_genuine true ahi bhi i4 j4 _ k4 H4).
Qed.

Lemma blocks_loop_genuine fuel : ∀ queue acc,
  Forall (genuine a b) acc → Forall (genuine a b) (blocks_loop fuel a b queue acc).
Proof.
  induction fuel as [|fuel IH]; intros queue acc Hacc; [done|].
  destruct queue as [|[[[alo ahi] blo] bhi] queue]; [done|].
  cbn [blocks_loop].
  pose proof (find_longest_match_genuine alo ahi blo bhi) as Hm.
  destruct (find_longest_match a b alo ahi blo bhi) as [[i j] k].
  destruct (0 <? k); [|by apply IH].
  apply IH. apply Forall_app. split; [done|]. by constructor.
Qed.

Lemma collapse_genuine blocks : ∀ i1 j1 k1,
  genuine a b (i1, j1, k1) → Forall (genuine a b) blocks →
  Forall (genuine a b) (collapse i1 j1 k1 blocks).
Proof.
  induction blocks as [|[[i2 j2] k2] blocks IH]; intros i1 j1 k1 H1 Hall.
  - simpl. destruct (0 <? k1); [by constructor|constructor].
  - inversion Hall as [|? ? H2 Hall']; subst. simpl collapse.
    destruct ((i1 + k1 =? i2) && (j1 + k1 =? j2)) eqn:E.
    + apply andb_prop in E as [<-%Nat.eqb_eq <-%Nat.eqb_eq]. apply IH; [|done].
      intros t Ht. cbn [fst snd] in *.
      destruct (decide (t < k1)) as [Hlt|Hge]; [by apply H1|].
      replace (i1 + t) with (i1 + k1 + (t - k1)) by lia.
      replace (j1 + t) with (j1 + k1 + (t - k1)) by lia.
      apply H2. cbn [snd]. lia.
    + apply Forall_app. split; [destruct (0 <? k1); by constructor|by apply IH].
Qed.

End Genuine.

(** X28: every block [(i, j, size)] that the matcher reports for two
    strings names a substring they share: the strings agree at the
    positions [i + t] and [j + t] for every [t] below [size].  What
    [ratio] counts as matching is therefore text that really occurs in
    both. *)
Theorem matching_blocks_are_common (a b : list N) :
  Forall (genuine a b) (SequenceMatcher.get_matching_blocks a b).
Proof.
  unfold SequenceMatcher.get_matching_blocks. apply Forall_app. split.
  - apply collapse_genuine.
    + intros t Ht. cbn [snd] in Ht. lia.
    + rewrite merge_sort_Permutation. apply blocks_loop_genuine. constructor.
  - constructor; [|constructor]. intros t Ht. cbn [snd] in Ht. lia.
Qed.

(** ** Questions and deadlines *)

Lemma step_keeps_deadline (rt : Runtime) (self : TriviaCommand.t) (e : event) :
  timely e → open_question_has_deadline self →
  open_question_has_deadline (step rt self e).
Proof.
  intros Htime Hinv. unfold open_question_has_deadline in *.
  destruct e as [allowed cmd remainder m net|now net]; cbn [step].
  - unfold TriviaCommand.call. destruct allowed; cbn [negb fst snd]; [|done].
    destruct (bool_decide (cmd = lit "!trivia")).
    + destruct (TriviaCommand.game self) as [g|] eqn:Eg; cbn [fst snd];
        [by rewrite Eg|done].
    + destruct (TriviaCommand.game self) as [g|] eqn:Eg; cbn [fst snd]; [|by rewrite Eg].
      destruct (check_cases rt g (nick m) (msg m))
        as [[_ ->]|[(q & _ & _ & ->)|(q & Hq & _ & _ & _ & ->)]]; cbn [fst snd];
        [done|done|].
      destruct (_ <=? _)%Z; cbn [fst snd]; [done|].
      unfold Game.question. cbn [Game._question fst snd]. done.
  - unfold TriviaCommand.onpulse.
    destruct (TriviaCommand.game self) as [g|] eqn:Eg; cbn [fst snd]; [|by rewrite Eg].
    destruct (Qeq_bool (TriviaCommand.deadline self) 0) eqn:E0.
    + destruct (Game.question rt net g (TriviaCommand.pool self)) as [[q g'] pool'].
      cbn [fst snd TriviaCommand.game TriviaCommand.deadline].
      intros H0. apply Qeq_bool_iff in H0. by destruct Htime.
    + destruct (negb _); cbn [fst snd]; [|by rewrite Eg, E0].
      destruct (Game.question rt net g (TriviaCommand.pool self)) as [[[q|] g'] pool'];
        cbn [fst snd TriviaCommand.game TriviaCommand.deadline]; [done|].
      by rewrite E0.
Qed.

(** X29: an open question always has a deadline.  For every sequence of
    chat lines and pulses delivered to a fresh controller (the clock never
    reading 30 before the epoch), in the state reached the deadline is
    unset only while the running game has no current question: whenever
    players can answer a question, the deadline that will reveal it is
    set. *)
Theorem reachable_open_question_has_deadline (rt : Runtime) (pool : option Pool.t)
    (events : list event)
    (Htimely : Forall timely events) :
  open_question_has_deadline (run rt events (TriviaCommand.new pool)).
Proof.
  unfold run.
  assert (H0 : open_question_has_deadline (TriviaCommand.new pool)) by done.
  revert H0. generalize (TriviaCommand.new pool).
  induction Htimely as [|e events He _ IH]; intros self Hinv; [done|].
  cbn [foldl]. by apply IH, step_keeps_deadline.
Qed.

Lemma reachable_open_question_has_deadline_witness :
  open_question_has_deadline
    (run ascii_only
       [Chat true (lit "!trivia") (lit "3") (says "alice" "!trivia 3") silent;
        Pulse 100 (jservice_only [cheap]);
        Chat true (lit "paris") [] (says "bob" "paris") silent;
        Pulse 105 silent]
       (TriviaCommand.new None)).
Proof.
  apply reachable_open_question_has_deadline.
  repeat constructor; intros H; vm_compute in H; discriminate.
Defined.
